(** * Roving tab index: the focus registry of [RovingTabIndex]

    A shallow embedding of the reducer and of the key-down handler of the
    roving-tabindex provider (src/unnamed/part_000), with the properties the
    specification states about them.

    Conventions of the embedding:
    - array indices are [Z], as in the source, where [findIndex] and
      [indexOf] answer [-1] and [refs[len - 1]] is read with [len = 0];
    - [activeRef : option Ref]: [None] stands for JavaScript's [null] and
      [undefined] alike; the source never tells them apart (it only compares
      [activeRef] with [===] against ref objects or hands it to [indexOf]);
    - a ref object is registered once its [current] node is attached (the hook
      dispatches from a layout effect, "setup (after refs)"), so [current] is a
      node, never [null];
    - reading a property of [undefined] is a [TypeError]: the functions return
      an [outcome], and the theorems show which outcome the code produces. *)

From Stdlib Require Import ZArith List Bool Ascii String Lia Permutation.
Import ListNotations.
Local Open Scope Z_scope.

(** ** Outcomes of JavaScript code *)

Inductive outcome (A : Type) : Type :=
| Returns (a : A)
| TypeError
| OutOfFuel.

Arguments Returns {A} a.
Arguments TypeError {A}.
Arguments OutOfFuel {A}.

Definition bind {A B : Type} (m : outcome A) (k : A -> outcome B) : outcome B :=
  match m with
  | Returns a => k a
  | TypeError => TypeError
  | OutOfFuel => OutOfFuel
  end.

Notation "x <- m ;; k" := (bind m (fun x => k))
  (at level 61, m at next level, right associativity).

(** ** DOM nodes and ref objects *)

(** A node of the document, identified by its index in document (tree) order. *)
Record Node : Type := mkNode { docIndex : nat }.

Definition node_eqb (a b : Node) : bool := Nat.eqb (docIndex a) (docIndex b).

Definition DOCUMENT_POSITION_PRECEDING : Z := 2.
Definition DOCUMENT_POSITION_FOLLOWING : Z := 4.

(** The DOM's [a.compareDocumentPosition(b)]: a bit mask that says where [b]
    lies relative to [a].  Bit 2 is set when [b] precedes [a], bit 4 when [b]
    follows [a]; the mask is 0 for the node itself.  (The containment bits 8
    and 16 a browser adds for ancestors and descendants never touch bit 2.) *)
Definition compareDocumentPosition (a b : Node) : Z :=
  if Nat.ltb (docIndex b) (docIndex a) then DOCUMENT_POSITION_PRECEDING
  else if Nat.ltb (docIndex a) (docIndex b) then DOCUMENT_POSITION_FOLLOWING
  else 0.

(** A React ref object: its identity and the node it holds in [current]. *)
Record Ref : Type := mkRef { refId : nat; current : Node }.

(** [r1 === r2] on ref objects. *)
Definition ref_eqb (r1 r2 : Ref) : bool :=
  Nat.eqb (refId r1) (refId r2) && node_eqb (current r1) (current r2).

(** [x === y] where either side may be [null]/[undefined]. *)
Definition opt_ref_eqb (x y : option Ref) : bool :=
  match x, y with
  | Some a, Some b => ref_eqb a b
  | None, None => true
  | _, _ => false
  end.

(** ** Arrays *)

(** [l[i]]: [None] is [undefined]. *)
Definition js_index {A : Type} (l : list A) (i : Z) : option A :=
  if i <? 0 then None else nth_error l (Z.to_nat i).

(** [l[i].current] needs [l[i]] to be an object. *)
Definition get_ref (l : list Ref) (i : Z) : outcome Ref :=
  match js_index l i with
  | Some r => Returns r
  | None => TypeError
  end.

Definition js_length {A : Type} (l : list A) : Z := Z.of_nat (List.length l).

(** The start index [splice] really uses: negative counts from the end, and
    everything is clamped to [0 .. length]. *)
Definition splice_start {A : Type} (l : list A) (start : Z) : nat :=
  if start <? 0 then Z.to_nat (Z.max (js_length l + start) 0)
  else Z.to_nat (Z.min start (js_length l)).

(** [l.splice(start, 0, x)]: the array afterwards. *)
Definition splice_insert {A : Type} (l : list A) (start : Z) (x : A) : list A :=
  let i := splice_start l start in
  firstn i l ++ x :: skipn i l.

(** [l.splice(start, 1)]: the removed elements and the array afterwards. *)
Definition splice_remove1 {A : Type} (l : list A) (start : Z) : list A * list A :=
  let i := splice_start l start in
  (firstn 1 (skipn i l), firstn i l ++ skipn (S i) l).

(** [l.findIndex(p)], counting from [from]. *)
Fixpoint findIndex_from {A : Type} (p : A -> bool) (l : list A) (from : Z) : Z :=
  match l with
  | [] => -1
  | x :: l' => if p x then from else findIndex_from p l' (from + 1)
  end.

Definition findIndex {A : Type} (p : A -> bool) (l : list A) : Z :=
  findIndex_from p l 0.

(** [refs.indexOf(x)] for an [x] that may be [null]: no ref object is [null]. *)
Definition indexOf (l : list Ref) (x : option Ref) : Z :=
  match x with
  | Some r => findIndex (fun e => ref_eqb e r) l
  | None => -1
  end.

(** ** The registry state and its actions *)

Record IState : Type := mkState { activeRef : option Ref; refs : list Ref }.

Inductive ActionType : Type := Register | Unregister | SetFocus.

Record IAction : Type := mkAction { type : ActionType; payload : Ref }.

(** The state [useReducer] starts from. *)
Definition initialState : IState := {| activeRef := None; refs := [] |}.

(** ** The reducer *)

Inductive Slot : Type :=
| AlreadyPresent
| InsertAt (index : Z).

(** The [while (left <= right)] loop of [Type.Register].  [index] is the
    variable the loop leaves behind for [splice]. *)
Fixpoint search (fuel : nat) (rs : list Ref) (ref : Ref) (left right index : Z)
  : outcome Slot :=
  if left <=? right then
    match fuel with
    | O => OutOfFuel
    | S fuel' =>
        let index := (left + right) / 2 in
        r <- get_ref rs index ;;
        let elem := current r in
        if node_eqb elem (current ref) then Returns AlreadyPresent
        else if negb (Z.land (compareDocumentPosition (current ref) elem)
                             DOCUMENT_POSITION_PRECEDING =? 0)
        then search fuel' rs ref (index + 1) right index
        else search fuel' rs ref left (index - 1) index
    end
  else Returns (InsertAt index).

(** [reducer]: the value the reducer returns.  The source writes the new
    fields into [state] before it returns the copy [{ ...state }]; the value
    returned is modelled, and where the source says [return state] the very
    state comes back.  [ActionType] has the three members of the enum [Type],
    so the [default] branch has no case here. *)
Definition reducer (state : IState) (action : IAction) : outcome IState :=
  match type action with
  | Register =>
      if js_length (refs state) =? 0 then
        Returns {| activeRef := Some (payload action);
                   refs := [payload action] |}
      else
        slot <- search (List.length (refs state)) (refs state) (payload action)
                       0 (js_length (refs state) - 1) (js_length (refs state)) ;;
        match slot with
        | AlreadyPresent => Returns state
        | InsertAt index =>
            Returns {| activeRef := activeRef state;
                       refs := splice_insert (refs state) index (payload action) |}
        end
  | Unregister =>
      let oldIndex := findIndex (fun r => ref_eqb r (payload action)) (refs state) in
      if oldIndex =? -1 then Returns state
      else
        let '(removed, rest) := splice_remove1 (refs state) oldIndex in
        if opt_ref_eqb (js_index removed 0) (activeRef state) then
          let len := js_length rest in
          Returns {| activeRef := if oldIndex >=? len then js_index rest (len - 1)
                                  else js_index rest oldIndex;
                     refs := rest |}
        else Returns {| activeRef := activeRef state; refs := rest |}
  | SetFocus =>
      Returns {| activeRef := Some (payload action); refs := refs state |}
  end.

Definition register (r : Ref) : IAction := {| type := Register; payload := r |}.
Definition unregister (r : Ref) : IAction := {| type := Unregister; payload := r |}.
Definition setFocus (r : Ref) : IAction := {| type := SetFocus; payload := r |}.

(** Dispatching a list of actions, one after the other. *)
Fixpoint dispatchAll (state : IState) (actions : list IAction) : outcome IState :=
  match actions with
  | [] => Returns state
  | a :: rest => s <- reducer state a ;; dispatchAll s rest
  end.

(** ** The hook *)

(** [useRovingTabIndex] dispatches [register] from its layout effect,
    [unregister] from the effect's teardown and [setFocus] from [onFocus];
    [isActive] is what it computes from the state:
    [context.state.activeRef === ref]. *)
Definition isActive (state : IState) (ref : Ref) : bool :=
  opt_ref_eqb (activeRef state) (Some ref).

(** The document index of the node a ref holds. *)
Definition position (r : Ref) : nat := docIndex (current r).

(** ** The key-down handler *)

(** Modelled from the spec: the key names of [Key] in "../Keyboard", a file
    that is not part of the sources; the specification names the keys Home,
    End, ArrowUp and ArrowDown, which are the DOM's [KeyboardEvent.key]
    values. *)
Module Key.
Definition HOME : string := "Home"%string.
Definition END_ : string := "End"%string.
Definition ARROW_UP : string := "ArrowUp"%string.
Definition ARROW_DOWN : string := "ArrowDown"%string.
End Key.

(** What the handler reads of the event: [ev.target.tagName] and [ev.key]. *)
Record KeyboardEvent : Type := mkEvent { tagName : string; key : string }.

(** The provider's props; an omitted optional prop is [undefined], which the
    handler's [if] treats as [false].  [onKeyDown] says whether the callback
    was given. *)
Record IProps : Type :=
  mkProps { handleHomeEnd : bool; handleUpDown : bool; onKeyDown : bool }.

(** What one call of the handler does: the refs whose [current.focus()] it
    calls, whether it calls [preventDefault] and [stopPropagation], whether it
    hands the event to [onKeyDown], and [context.state] as it leaves it (the
    handler only reads it). *)
Record KeyDownResult : Type :=
  mkResult { focusCalls : list Ref;
             defaultPrevented : bool;
             propagationStopped : bool;
             onKeyDownCalled : bool;
             stateAfter : IState }.

(** [rs[i].current.focus()] *)
Definition focus (rs : list Ref) (i : Z) : outcome (list Ref) :=
  r <- get_ref rs i ;; Returns [r].

(** [onKeyDownHandler]: the [switch (ev.key)] is the chain of tests on the
    four distinct key names; [handled] and the focus calls are what the first
    part computes, the calls on the event follow from [handled].  The handler
    dispatches nothing itself: the state changes only when a focused
    component reports the focus with its own [SetFocus]. *)
Definition onKeyDownHandler (props : IProps) (state : IState) (ev : KeyboardEvent)
  : outcome KeyDownResult :=
  let rs := refs state in
  hf <- (if negb (String.eqb (tagName ev) "INPUT"%string)
              && negb (String.eqb (tagName ev) "TEXTAREA"%string) then
           if String.eqb (key ev) Key.HOME then
             if handleHomeEnd props then
               f <- (if js_length rs >? 0 then focus rs 0 else Returns []) ;;
               Returns (true, f)
             else Returns (false, [])
           else if String.eqb (key ev) Key.END_ then
             if handleHomeEnd props then
               f <- (if js_length rs >? 0 then focus rs (js_length rs - 1)
                     else Returns []) ;;
               Returns (true, f)
             else Returns (false, [])
           else if String.eqb (key ev) Key.ARROW_UP then
             if handleUpDown props then
               f <- (if js_length rs >? 0 then
                       let idx := indexOf rs (activeRef state) in
                       if idx >? 0 then focus rs (idx - 1) else Returns []
                     else Returns []) ;;
               Returns (true, f)
             else Returns (false, [])
           else if String.eqb (key ev) Key.ARROW_DOWN then
             if handleUpDown props then
               f <- (if js_length rs >? 0 then
                       let idx := indexOf rs (activeRef state) in
                       if idx <? js_length rs - 1 then focus rs (idx + 1)
                       else Returns []
                     else Returns []) ;;
               Returns (true, f)
             else Returns (false, [])
           else Returns (false, [])
         else Returns (false, [])) ;;
  let '(handled, focused) := hf in
  Returns {| focusCalls := focused;
             defaultPrevented := handled;
             propagationStopped := handled;
             onKeyDownCalled := negb handled && onKeyDown props;
             stateAfter := state |}.

(** The two shapes a result takes: the key was handled (with the focus calls
    made), or it was left to the default behaviour and to [onKeyDown]. *)
Definition handled (state : IState) (focused : list Ref) : KeyDownResult :=
  {| focusCalls := focused;
     defaultPrevented := true;
     propagationStopped := true;
     onKeyDownCalled := false;
     stateAfter := state |}.

Definition notHandled (props : IProps) (state : IState) : KeyDownResult :=
  {| focusCalls := [];
     defaultPrevented := false;
     propagationStopped := false;
     onKeyDownCalled := onKeyDown props;
     stateAfter := state |}.

(** The focus calls of one key press: none, or one on a registered ref. *)
Definition atMostOneRegistered (s : IState) (calls : list Ref) : Prop :=
  calls = [] \/ exists x, calls = [x] /\ In x (refs s).

(** Unfolds the handler at an event with a literal key and decides the
    [switch] on that key. *)
Ltac handler_start :=
  unfold onKeyDownHandler; cbn [tagName key];
  change (String.eqb Key.HOME Key.HOME) with true;
  change (String.eqb Key.END_ Key.HOME) with false;
  change (String.eqb Key.END_ Key.END_) with true;
  change (String.eqb Key.ARROW_UP Key.HOME) with false;
  change (String.eqb Key.ARROW_UP Key.END_) with false;
  change (String.eqb Key.ARROW_UP Key.ARROW_UP) with true;
  change (String.eqb Key.ARROW_DOWN Key.HOME) with false;
  change (String.eqb Key.ARROW_DOWN Key.END_) with false;
  change (String.eqb Key.ARROW_DOWN Key.ARROW_UP) with false;
  change (String.eqb Key.ARROW_DOWN Key.ARROW_DOWN) with true;
  cbv beta iota.

(** ** The data-model invariant *)

(** [refs] in document order: no ref's node precedes the node before it. *)
Fixpoint inDocumentOrder (rs : list Ref) : bool :=
  match rs with
  | [] => true
  | a :: rest =>
      match rest with
      | [] => true
      | b :: _ => Nat.leb (docIndex (current a)) (docIndex (current b))
                  && inDocumentOrder rest
      end
  end.

(** [activeRef] is [null] and the registry empty, or it is one of [refs]. *)
Definition activeValid (s : IState) : Prop :=
  match activeRef s with
  | None => refs s = []
  | Some r => In r (refs s)
  end.

(** The states the provider can reach with the operations of the
    specification: register, unregister, and setFocus of a registered ref. *)
Inductive Reachable : IState -> Prop :=
| reach_init : Reachable initialState
| reach_register s r s' :
    Reachable s -> reducer s (register r) = Returns s' -> Reachable s'
| reach_unregister s r s' :
    Reachable s -> reducer s (unregister r) = Returns s' -> Reachable s'
| reach_setFocus s r s' :
    Reachable s -> In r (refs s) -> reducer s (setFocus r) = Returns s' ->
    Reachable s'.

(** * Permalinks (src/src/matrix-to.js)

    Conventions of this part:
    - a JavaScript string is held as the bytes of its UTF-8 form (the only
      separator the code splits at, ":", is one such byte, and
      [encodeURIComponent] works on these bytes);
    - a candidate is an [option string]: [None] is [undefined], which the
      code can push when it reads past the end of an array;
    - [populationMap], an object used as a map from server names to numbers,
      is the list of its entries in insertion order; this is how the object
      behaves for keys that are ordinary names, neither array indices nor
      names inherited from [Object.prototype];
    - power levels are integers. *)

Definition host : string := "matrix.to".
Definition baseUrl : string := ("https://" ++ host)%string.

(** ** Strings *)

(** [s.split(sep)] for a separator of one character. *)
Fixpoint js_split (sep : ascii) (s : string) : list string :=
  match s with
  | EmptyString => [EmptyString]
  | String c rest =>
      if Ascii.eqb c sep then EmptyString :: js_split sep rest
      else match js_split sep rest with
           | [] => [String c EmptyString]
           | piece :: pieces => String c piece :: pieces
           end
  end.

(** [l.join(sep)] on an array of strings. *)
Fixpoint js_join (sep : string) (l : list string) : string :=
  match l with
  | [] => EmptyString
  | x :: rest =>
      match rest with
      | [] => x
      | _ :: _ => (x ++ sep ++ js_join sep rest)%string
      end
  end.

(** [l.splice(start)]: the removed elements, from [start] to the end. *)
Definition splice_from {A : Type} (l : list A) (start : Z) : list A :=
  skipn (splice_start l start) l.

(** [userId.split(":").splice(1).join(":")] *)
Definition serverNameOf (userId : string) : string :=
  js_join ":" (splice_from (js_split ":" userId) 1).

(** No character of [s] is [sep]. *)
Definition lacks (sep : ascii) (s : string) : Prop :=
  ~ In sep (list_ascii_of_string s).

(** The characters [encodeURIComponent] leaves as they are: letters, digits
    and [- _ . ! ~ * ' ( )]. *)
Definition isUnreserved (c : ascii) : bool :=
  let n := nat_of_ascii c in
  (Nat.leb 65 n && Nat.leb n 90) || (Nat.leb 97 n && Nat.leb n 122)
  || (Nat.leb 48 n && Nat.leb n 57)
  || existsb (Ascii.eqb c) (list_ascii_of_string "-_.!~*'()").

Definition hexDigit (n : nat) : ascii :=
  if Nat.ltb n 10 then ascii_of_nat (48 + n) else ascii_of_nat (55 + n).

Definition percentEncode (c : ascii) : string :=
  String "%" (String (hexDigit (nat_of_ascii c / 16))
             (String (hexDigit (nat_of_ascii c mod 16)) EmptyString)).

(** [encodeURIComponent(s)]: every byte of the UTF-8 form that is not
    unreserved becomes [%XX]. *)
Fixpoint encodeURIComponent (s : string) : string :=
  match s with
  | EmptyString => EmptyString
  | String c rest =>
      ((if isUnreserved c then String c EmptyString else percentEncode c)
       ++ encodeURIComponent rest)%string
  end.

(** The string a candidate is turned into when [encodeURIComponent] gets
    it as argument. *)
Definition toString (c : option string) : string :=
  match c with
  | Some s => s
  | None => "undefined"
  end.

(** ** The client *)

(** Modelled from the spec: the parts of the client SDK that
    [pickServerCandidates] uses and that are not among the sources
    ("./MatrixClientPeg" and the SDK's room objects): a room member with its
    [userId] and [powerLevel], a room with [getJoinedMembers()], a client with
    [getRoom(roomId)], which answers [null] for a room it does not know. *)
Record RoomMember : Type := mkMember { userId : string; powerLevel : Z }.

Record Room : Type := mkRoom { getJoinedMembers : list RoomMember }.

Record MatrixClient : Type := mkClient { getRoom : string -> option Room }.

(** ** [encodeServerCandidates] *)

Definition encodeServerCandidates (candidates : option (list (option string)))
  : string :=
  match candidates with
  | None => EmptyString
  | Some cs =>
      ("via=" ++ js_join "&via="
                   (map (fun c => encodeURIComponent (toString c)) cs))%string
  end.

(** ** [pickServerCandidates] *)

Definition PopulationMap : Type := list (string * Z).

(** [populationMap[k]] *)
Fixpoint obj_get (m : PopulationMap) (k : string) : option Z :=
  match m with
  | [] => None
  | (k', v) :: rest => if String.eqb k' k then Some v else obj_get rest k
  end.

(** [if (!populationMap[k]) populationMap[k] = 0; populationMap[k]++], for
    a key [k] that is an ordinary name.  (A name that objects inherit, like
    "constructor", reads as a function the first time, so the object stores
    NaN and starts to count with the next member; "__proto__" is never
    stored.  Theorems that depend on the counts take [hostLike] names.) *)
Fixpoint countServer (m : PopulationMap) (k : string) : PopulationMap :=
  match m with
  | [] => [(k, 0 + 1)]
  | (k', v) :: rest =>
      if String.eqb k' k then (k', (if v =? 0 then 0 else v) + 1) :: rest
      else (k', v) :: countServer rest k
  end.

(** [Object.keys(populationMap)]: the keys in insertion order, which is
    their order in the object when none of them is an array index (those come
    first, in ascending order). *)
Definition ownKeys (m : PopulationMap) : list string := map fst m.

(** [populationMap[k]] as a number, for a key of the map. *)
Definition populationOf (m : PopulationMap) (k : string) : Z :=
  match obj_get m k with
  | Some v => v
  | None => 0
  end.

Record HighestPlUser : Type :=
  mkHighest { plUserId : option string;
              plPowerLevel : Z;
              plServerName : option string }.

(** One turn of [for (const member of room.getJoinedMembers())]. *)
Definition memberStep (acc : PopulationMap * HighestPlUser) (member : RoomMember)
  : PopulationMap * HighestPlUser :=
  let '(populationMap, highestPlUser) := acc in
  let serverName := serverNameOf (userId member) in
  let highestPlUser :=
    if powerLevel member >? plPowerLevel highestPlUser then
      {| plUserId := Some (userId member);
         plPowerLevel := powerLevel member;
         plServerName := Some serverName |}
    else highestPlUser in
  (countServer populationMap serverName, highestPlUser).

(** [l.sort(cmp)]: a stable sort; an element goes before the first one it
    does not compare greater than. *)
Fixpoint insertBy {A : Type} (cmp : A -> A -> Z) (x : A) (l : list A) : list A :=
  match l with
  | [] => [x]
  | y :: rest => if cmp x y <=? 0 then x :: y :: rest
                 else y :: insertBy cmp x rest
  end.

Fixpoint sortBy {A : Type} (cmp : A -> A -> Z) (l : list A) : list A :=
  match l with
  | [] => []
  | x :: rest => insertBy cmp x (sortBy cmp rest)
  end.

(** [candidates.includes(a)] *)
Definition includes (candidates : list (option string)) (a : string) : bool :=
  existsb (fun c => match c with
                    | Some s => String.eqb s a
                    | None => false
                    end) candidates.

Definition maxCandidates : Z := 3.

(** The [while] loop that fills [candidates]. *)
Fixpoint fillCandidates (fuel : nat) (serversByPopulation : list string)
    (candidates : list (option string)) : outcome (list (option string)) :=
  if (js_length candidates <? maxCandidates)
     && (js_length candidates <=? js_length serversByPopulation) then
    match fuel with
    | O => OutOfFuel
    | S fuel' =>
        fillCandidates fuel' serversByPopulation
          (candidates
           ++ [js_index serversByPopulation
                        (Z.max 0 (js_length candidates - 1))])
    end
  else Returns candidates.

(** [peg] is what [MatrixClientPeg.get()] answers: the client, or [null]. *)
Definition pickServerCandidates (peg : option MatrixClient) (roomId : string)
  : outcome (list (option string)) :=
  match peg with
  | None => TypeError
  | Some client =>
      match getRoom client roomId with
      | None => Returns []
      | Some room =>
          let '(populationMap, highestPlUser) :=
            fold_left memberStep (getJoinedMembers room)
              ([], {| plUserId := None; plPowerLevel := 0;
                      plServerName := None |}) in
          let candidates :=
            if plPowerLevel highestPlUser >=? 50
            then [plServerName highestPlUser] else [] in
          let serversByPopulation :=
            filter (fun a => negb (includes candidates a))
              (sortBy (fun a b => populationOf populationMap a
                                  - populationOf populationMap b)
                      (ownKeys populationMap)) in
          fillCandidates 3 serversByPopulation candidates
      end
  end.

(** ** The permalinks *)

Definition makeEventPermalink (peg : option MatrixClient) (roomId eventId : string)
  : outcome string :=
  serverCandidates <- pickServerCandidates peg roomId ;;
  Returns (baseUrl ++ "/#/" ++ roomId ++ "/" ++ eventId ++ "?"
           ++ encodeServerCandidates (Some serverCandidates))%string.

Definition makeUserPermalink (userId : string) : string :=
  (baseUrl ++ "/#/" ++ userId)%string.

Definition makeRoomPermalink (peg : option MatrixClient) (roomId : string)
  : outcome string :=
  serverCandidates <- pickServerCandidates peg roomId ;;
  Returns (baseUrl ++ "/#/" ++ roomId ++ "?"
           ++ encodeServerCandidates (Some serverCandidates))%string.

Definition makeGroupPermalink (groupId : string) : string :=
  (baseUrl ++ "/#/" ++ groupId)%string.

(** The servers of a room's members, and how many members each has. *)
Definition serverOf (m : RoomMember) : string := serverNameOf (userId m).

Definition memberCount (members : list RoomMember) (server : string) : Z :=
  js_length (filter (fun m => String.eqb (serverOf m) server) members).

(** A server name with a dot, as a host name or an address has: such a name
    is an ordinary key of [populationMap], no array index and no name that
    objects inherit, so the object counts it as the map here does. *)
Definition hostLike (server : string) : Prop :=
  In "."%char (list_ascii_of_string server).

(** What [highestPlUser] holds once the members [seen] have gone through
    the loop: the power level 0 it starts with, or the first of the members
    with the highest power level. *)
Definition highestAmong (hp : HighestPlUser) (seen : list RoomMember) : Prop :=
  0 <= plPowerLevel hp
  /\ (forall m, In m seen -> powerLevel m <= plPowerLevel hp)
  /\ ((plPowerLevel hp = 0 /\ plServerName hp = None)
      \/ exists before m after,
           seen = before ++ m :: after
           /\ powerLevel m = plPowerLevel hp /\ 0 < powerLevel m
           /\ plServerName hp = Some (serverOf m)
           /\ forall x, In x before -> powerLevel x < powerLevel m).

(** The least element of a list under a measure comes first. *)
Definition headLeast {A : Type} (f : A -> Z) (l : list A) : Prop :=
  match l with
  | [] => True
  | x :: _ => forall y, In y l -> f x <= f y
  end.

(** A sample room. *)
Definition sampleRoom : Room :=
  mkRoom [mkMember "@alice:matrix.org" 0; mkMember "@bob:example.com:8448" 100;
          mkMember "@carol:matrix.org" 50; mkMember "@dave:third.net" 0].

Definition sampleClient : MatrixClient :=
  mkClient (fun roomId => if String.eqb roomId "!room:matrix.org"
                          then Some sampleRoom else None).

(** ** Sample refs *)

Definition refA : Ref := {| refId := 1; current := mkNode 10 |}.
Definition refB : Ref := {| refId := 2; current := mkNode 20 |}.
Definition refC : Ref := {| refId := 3; current := mkNode 30 |}.

Example register_first :
  reducer initialState (register refA)
  = Returns {| activeRef := Some refA; refs := [refA] |}.
Proof. reflexivity. Qed.

Example register_reverse_order :
  dispatchAll initialState [register refC; register refB; register refA]
  = Returns {| activeRef := Some refC; refs := [refA; refB; refC] |}.
Proof. reflexivity. Qed.

(** * Basic facts *)

Lemma Returns_inj {A} (a b : A) : Returns a = Returns b -> a = b.
Proof. congruence. Qed.

Lemma node_eqb_eq a b : node_eqb a b = true <-> a = b.
Proof.
  unfold node_eqb. rewrite Nat.eqb_eq.
  destruct a as [x], b as [y]; simpl. split; congruence.
Qed.

Lemma ref_eqb_eq a b : ref_eqb a b = true <-> a = b.
Proof.
  unfold ref_eqb. rewrite andb_true_iff, Nat.eqb_eq, node_eqb_eq.
  destruct a as [i x], b as [j y]; simpl. split.
  - intros [-> ->]. reflexivity.
  - intros H. injection H as -> ->. split; reflexivity.
Qed.

Lemma ref_eqb_refl a : ref_eqb a a = true.
Proof. apply ref_eqb_eq. reflexivity. Qed.

Lemma opt_ref_eqb_eq x y : opt_ref_eqb x y = true <-> x = y.
Proof.
  destruct x as [a|], y as [b|]; simpl; try (split; congruence).
  rewrite ref_eqb_eq. split; congruence.
Qed.

(** The test [a.compareDocumentPosition(b) & DOCUMENT_POSITION_PRECEDING] is
    truthy exactly when [b] comes before [a] in the document. *)
Lemma preceding_bit a b :
  negb (Z.land (compareDocumentPosition a b) DOCUMENT_POSITION_PRECEDING =? 0)
  = Nat.ltb (docIndex b) (docIndex a).
Proof.
  unfold compareDocumentPosition.
  destruct (Nat.ltb (docIndex b) (docIndex a)); [reflexivity|].
  destruct (Nat.ltb (docIndex a) (docIndex b)); reflexivity.
Qed.

Lemma js_length_nonneg {A} (l : list A) : 0 <= js_length l.
Proof. unfold js_length. lia. Qed.

Lemma js_index_of_nat {A} (l : list A) (n : nat) :
  js_index l (Z.of_nat n) = nth_error l n.
Proof.
  unfold js_index. destruct (Z.ltb_spec (Z.of_nat n) 0) as [Hneg|_]; [lia|].
  rewrite Nat2Z.id. reflexivity.
Qed.

Lemma js_index_Some {A} (l : list A) i x :
  js_index l i = Some x ->
  0 <= i < js_length l /\ nth_error l (Z.to_nat i) = Some x.
Proof.
  unfold js_index, js_length. destruct (Z.ltb_spec i 0) as [Hneg|Hpos];
    [discriminate|].
  intros H. split; [|exact H].
  assert (Z.to_nat i < List.length l)%nat
    by (apply nth_error_Some; congruence).
  lia.
Qed.

Lemma js_index_in_range {A} (l : list A) i :
  0 <= i < js_length l -> exists x, js_index l i = Some x /\ In x l.
Proof.
  unfold js_index, js_length. intros [Hlo Hhi].
  destruct (Z.ltb_spec i 0) as [Hneg|_]; [lia|].
  destruct (nth_error l (Z.to_nat i)) as [x|] eqn:E.
  - exists x. split; [reflexivity|]. eapply nth_error_In; eassumption.
  - apply nth_error_None in E. lia.
Qed.

Lemma js_index_out_of_range {A} (l : list A) i :
  i < 0 \/ js_length l <= i -> js_index l i = None.
Proof.
  unfold js_index, js_length. intros H.
  destruct (Z.ltb_spec i 0) as [_|Hpos]; [reflexivity|].
  apply nth_error_None. lia.
Qed.

Lemma splice_start_in_range {A} (l : list A) (n : nat) :
  (n <= List.length l)%nat -> splice_start l (Z.of_nat n) = n.
Proof.
  intros H. unfold splice_start, js_length.
  destruct (Z.ltb_spec (Z.of_nat n) 0) as [Hneg|_]; lia.
Qed.

Lemma nth_error_split_at {A} (l : list A) n x :
  nth_error l n = Some x -> l = firstn n l ++ x :: skipn (S n) l.
Proof.
  revert n; induction l as [|y l IH]; intros [|n] H; simpl in *;
    try discriminate.
  - congruence.
  - f_equal. apply IH. exact H.
Qed.

(** What [findIndex] answers: [-1] when no element passes the test, and
    otherwise the index of the first one that does. *)
Lemma findIndex_from_spec {A} (p : A -> bool) l from :
  (findIndex_from p l from = -1 /\ forall x, In x l -> p x = false)
  \/ (exists n x, findIndex_from p l from = from + Z.of_nat n
               /\ nth_error l n = Some x /\ p x = true
               /\ forall m y, (m < n)%nat -> nth_error l m = Some y -> p y = false).
Proof.
  revert from; induction l as [|a l IH]; intros from; simpl.
  - left. split; [reflexivity|]. intros x [].
  - destruct (p a) eqn:Ea.
    + right. exists 0%nat, a. repeat split; [lia|assumption|].
      intros m y Hm; lia.
    + destruct (IH (from + 1)) as [[E H]|(n & x & E & Hn & Hx & Hmin)].
      * left. split; [exact E|]. intros x [<-|Hin]; auto.
      * right. exists (S n), x. repeat split; [lia|assumption|assumption|].
        intros [|m] y Hm Hy; simpl in Hy; [congruence|].
        apply (Hmin m); [lia|assumption].
Qed.

Lemma findIndex_spec {A} (p : A -> bool) l :
  (findIndex p l = -1 /\ forall x, In x l -> p x = false)
  \/ (exists n x, findIndex p l = Z.of_nat n
               /\ nth_error l n = Some x /\ p x = true
               /\ forall m y, (m < n)%nat -> nth_error l m = Some y -> p y = false).
Proof.
  unfold findIndex.
  destruct (findIndex_from_spec p l 0) as [H|(n & x & E & H)]; [left; exact H|].
  right. exists n, x. split; [rewrite E; lia|exact H].
Qed.

Lemma findIndex_missing l h :
  ~ In h l -> findIndex (fun r => ref_eqb r h) l = -1.
Proof.
  intros Hnot.
  destruct (findIndex_spec (fun r => ref_eqb r h) l)
    as [[E _]|(n & x & _ & Hn & Hx & _)]; [exact E|].
  apply ref_eqb_eq in Hx; subst x.
  exfalso. apply Hnot. eapply nth_error_In; eassumption.
Qed.

Lemma findIndex_present l h :
  In h l ->
  exists n, findIndex (fun r => ref_eqb r h) l = Z.of_nat n
            /\ nth_error l n = Some h.
Proof.
  intros Hin.
  destruct (findIndex_spec (fun r => ref_eqb r h) l)
    as [[_ Hall]|(n & x & E & Hn & Hx & _)].
  - specialize (Hall h Hin). rewrite ref_eqb_refl in Hall. discriminate.
  - apply ref_eqb_eq in Hx; subst x. exists n. split; assumption.
Qed.

(** * The binary search of [Type.Register] *)

Lemma get_ref_in_range rs i :
  0 <= i < js_length rs -> exists r, get_ref rs i = Returns r /\ In r rs.
Proof.
  intros H. destruct (js_index_in_range rs i H) as (r & E & Hin).
  exists r. unfold get_ref. rewrite E. split; [reflexivity|assumption].
Qed.

Lemma midpoint_bounds left right :
  left <= right -> left <= (left + right) / 2 <= right.
Proof. intros H. Z.div_mod_to_equations. lia. Qed.

(** The loop ends: with fuel for every element of the range it returns, it
    never reads outside the array, and the slot it leaves is a valid index for
    [splice]. *)
Lemma search_returns fuel rs ref : forall left right index,
  0 <= left -> right < js_length rs ->
  right - left + 1 <= Z.of_nat fuel ->
  0 <= index <= js_length rs ->
  exists slot,
    search fuel rs ref left right index = Returns slot
    /\ match slot with
       | AlreadyPresent => exists r, In r rs /\ current r = current ref
       | InsertAt i => 0 <= i <= js_length rs
       end.
Proof.
  induction fuel as [|fuel IH]; intros left right index Hl Hr Hfuel Hidx;
    simpl; destruct (Z.leb_spec left right) as [Hle|Hgt];
    try (exists (InsertAt index); split; [reflexivity|assumption]).
  - lia.
  - pose proof (midpoint_bounds left right Hle) as Hmid.
    set (mid := (left + right) / 2) in *.
    destruct (get_ref_in_range rs mid) as (r & E & Hin); [lia|].
    rewrite E; simpl.
    destruct (node_eqb (current r) (current ref)) eqn:Eeq.
    + exists AlreadyPresent. split; [reflexivity|].
      exists r. split; [assumption|]. apply node_eqb_eq. exact Eeq.
    + destruct (negb _); apply IH; lia.
Qed.

(** * The reducer always returns *)

Lemma register_returns s r :
  exists s', reducer s (register r) = Returns s'.
Proof.
  unfold reducer; simpl.
  destruct (Z.eqb_spec (js_length (refs s)) 0) as [E|E]; [eexists; reflexivity|].
  pose proof (js_length_nonneg (refs s)) as Hlen.
  destruct (search_returns (List.length (refs s)) (refs s) r
              0 (js_length (refs s) - 1) (js_length (refs s)))
    as (slot & Es & _); try (unfold js_length in *; lia).
  rewrite Es; simpl. destruct slot; eexists; reflexivity.
Qed.

Lemma unregister_returns s r :
  exists s', reducer s (unregister r) = Returns s'.
Proof.
  unfold reducer; simpl.
  destruct (_ =? -1); [eexists; reflexivity|].
  unfold splice_remove1. cbv beta iota zeta.
  destruct (opt_ref_eqb _ _); eexists; reflexivity.
Qed.

(** For refs that hold their nodes, as every [Ref] here does, the search
    loop ends inside [refs] and every action yields a state. *)
Lemma reducer_returns s a : exists s', reducer s a = Returns s'.
Proof.
  destruct a as [[| |] r].
  - apply (register_returns s r).
  - apply (unregister_returns s r).
  - eexists; reflexivity.
Qed.

(** * What each action does to the state *)

(** Registering either leaves the state as it is or puts the ref somewhere
    into [refs]; after the first registration [activeRef] is not touched. *)
Lemma register_nonempty s r s' :
  refs s <> [] -> reducer s (register r) = Returns s' ->
  s' = s
  \/ exists n, (n <= List.length (refs s))%nat
       /\ s' = {| activeRef := activeRef s;
                  refs := firstn n (refs s) ++ r :: skipn n (refs s) |}.
Proof.
  intros Hne. unfold reducer; simpl.
  destruct (Z.eqb_spec (js_length (refs s)) 0) as [E|E].
  { destruct (refs s); [congruence|discriminate E]. }
  pose proof (js_length_nonneg (refs s)) as Hlen.
  destruct (search_returns (List.length (refs s)) (refs s) r
              0 (js_length (refs s) - 1) (js_length (refs s)))
    as (slot & Es & Hslot); try (unfold js_length in *; lia).
  rewrite Es; simpl. destruct slot as [|i]; intros H; injection H as <-.
  - left; reflexivity.
  - right. exists (Z.to_nat i). unfold js_length in Hslot.
    split; [lia|]. unfold splice_insert.
    replace i with (Z.of_nat (Z.to_nat i)) at 1 2 by lia.
    rewrite splice_start_in_range by lia. reflexivity.
Qed.

(** Unregistering a registered ref takes its first occurrence out of [refs]
    and, when it was the active ref, picks the replacement by index. *)
Lemma unregister_present s h n :
  findIndex (fun r => ref_eqb r h) (refs s) = Z.of_nat n ->
  nth_error (refs s) n = Some h ->
  let rest := firstn n (refs s) ++ skipn (S n) (refs s) in
  reducer s (unregister h)
  = Returns {| activeRef :=
                 if opt_ref_eqb (Some h) (activeRef s) then
                   if Z.of_nat n >=? js_length rest
                   then js_index rest (js_length rest - 1)
                   else js_index rest (Z.of_nat n)
                 else activeRef s;
               refs := rest |}.
Proof.
  intros E Hn rest. unfold reducer, unregister; cbn [type payload]. rewrite E.
  destruct (Z.eqb_spec (Z.of_nat n) (-1)) as [Hm|_]; [lia|].
  assert (Hlt : (n < List.length (refs s))%nat)
    by (apply nth_error_Some; congruence).
  unfold splice_remove1. rewrite splice_start_in_range by lia.
  cbv beta iota zeta.
  assert (Hrem : firstn 1 (skipn n (refs s)) = [h]).
  { rewrite (nth_error_split_at _ _ _ Hn) at 1.
    rewrite skipn_app, firstn_length_le by lia.
    rewrite Nat.sub_diag. rewrite skipn_all2 by (rewrite firstn_length_le; lia).
    reflexivity. }
  rewrite Hrem. change (js_index [h] 0) with (Some h).
  fold rest. destruct (opt_ref_eqb (Some h) (activeRef s)); reflexivity.
Qed.

(** * [activeRef] stays valid *)

Lemma js_index_In {A} (l : list A) i x : js_index l i = Some x -> In x l.
Proof.
  intros H. apply js_index_Some in H as [_ H].
  eapply nth_error_In; eassumption.
Qed.

Lemma In_remove_nth (l : list Ref) n h a :
  nth_error l n = Some h -> In a l -> a <> h ->
  In a (firstn n l ++ skipn (S n) l).
Proof.
  intros Hn Hin Hne.
  assert (H : In a (firstn n l ++ h :: skipn (S n) l))
    by (rewrite <- (nth_error_split_at _ _ _ Hn); exact Hin).
  apply in_app_or in H as [H|[H|H]]; apply in_or_app; auto.
  congruence.
Qed.

Lemma In_insert_nth (l : list Ref) n r a :
  In a l -> In a (firstn n l ++ r :: skipn n l).
Proof.
  intros Hin. rewrite <- (firstn_skipn n l) in Hin.
  apply in_app_or in Hin as [H|H]; apply in_or_app; simpl; auto.
Qed.

Lemma register_activeValid s r s' :
  activeValid s -> reducer s (register r) = Returns s' -> activeValid s'.
Proof.
  intros Hv Hr. destruct (refs s) as [|x l] eqn:Erefs.
  - unfold reducer in Hr; simpl in Hr. rewrite Erefs in Hr; simpl in Hr.
    injection Hr as <-. unfold activeValid; simpl. auto.
  - destruct (register_nonempty s r s') as [->|(n & _ & ->)];
      [rewrite Erefs; discriminate|assumption|assumption|].
    unfold activeValid in *; simpl.
    destruct (activeRef s) as [a|].
    + apply In_insert_nth. exact Hv.
    + rewrite Erefs in Hv. discriminate.
Qed.

Lemma unregister_activeValid s h s' :
  activeValid s -> reducer s (unregister h) = Returns s' -> activeValid s'.
Proof.
  intros Hv Hr.
  destruct (findIndex_spec (fun r => ref_eqb r h) (refs s))
    as [[E _]|(n & x & E & Hn & Hx & _)].
  - unfold reducer, unregister in Hr; cbn [type payload] in Hr.
    rewrite E in Hr; simpl in Hr. injection Hr as <-. exact Hv.
  - apply ref_eqb_eq in Hx; subst x.
    rewrite (unregister_present s h n E Hn) in Hr.
    apply Returns_inj in Hr; subst s'.
    set (rest := firstn n (refs s) ++ skipn (S n) (refs s)).
    pose proof (js_length_nonneg rest) as Hlen.
    unfold activeValid; cbn [activeRef refs].
    destruct (opt_ref_eqb (Some h) (activeRef s)) eqn:Eact.
    + destruct (Z.geb_spec (Z.of_nat n) (js_length rest)) as [Hge|Hlt].
      * destruct (js_index rest (js_length rest - 1)) as [y|] eqn:Ey;
          [eapply js_index_In; eassumption|].
        destruct rest as [|z rest']; [reflexivity|].
        destruct (js_index_in_range (z :: rest') (js_length (z :: rest') - 1))
          as (y & Ey' & _); [unfold js_length in *; cbn [List.length] in *; lia|].
        congruence.
      * destruct (js_index_in_range rest (Z.of_nat n)) as (y & Ey & Hy);
          [lia|]. rewrite Ey. exact Hy.
    + unfold activeValid in Hv. destruct (activeRef s) as [a|].
      * apply (In_remove_nth _ _ h); [assumption|assumption|].
        intros ->. simpl in Eact. rewrite ref_eqb_refl in Eact. discriminate.
      * apply nth_error_In in Hn. rewrite Hv in Hn. destruct Hn.
Qed.

Lemma setFocus_activeValid s r s' :
  In r (refs s) -> reducer s (setFocus r) = Returns s' -> activeValid s'.
Proof.
  intros Hin Hr. injection Hr as <-. exact Hin.
Qed.

(** The half of the data-model invariant that the reducer keeps: in every
    reachable state [activeRef] is [null] with an empty registry, or one of
    [refs]. *)
Lemma Reachable_activeValid s : Reachable s -> activeValid s.
Proof.
  induction 1 as [|s r s' _ IH Hr|s r s' _ IH Hr|s r s' _ IH Hin Hr].
  - reflexivity.
  - eapply register_activeValid; eassumption.
  - eapply unregister_activeValid; eassumption.
  - eapply setFocus_activeValid; eassumption.
Qed.

(** Registering a ref whose node comes after the only registered one puts it
    in front of it: the loop's last probe is index 0, and that is where
    [splice] inserts. *)
Lemma register_after_single a b :
  (docIndex (current a) < docIndex (current b))%nat ->
  reducer {| activeRef := Some a; refs := [a] |} (register b)
  = Returns {| activeRef := Some a; refs := [b; a] |}.
Proof.
  intros Hlt. unfold reducer, register; cbn [type payload refs activeRef].
  change (js_length [a] =? 0) with false. cbv beta iota.
  change (js_length [a] - 1) with 0. change (List.length [a]) with 1%nat.
  cbn [search]. change (0 <=? 0) with true. cbv beta iota zeta.
  change ((0 + 0) / 2) with 0. change (get_ref [a] 0) with (Returns a).
  cbn [bind].
  replace (node_eqb (current a) (current b)) with false
    by (symmetry; apply Nat.eqb_neq; lia).
  rewrite preceding_bit.
  replace (Nat.ltb (docIndex (current a)) (docIndex (current b))) with true
    by (symmetry; apply Nat.ltb_lt; lia).
  reflexivity.
Qed.

(** * The claims about the reducer *)

(** C1 (fails on the code): a state reached by two registrations whose
    [refs] are not in document order.  Registering [refA] and then [refB],
    whose node follows [refA]'s, leaves [refs = [refB; refA]]. *)
Theorem reachable_refs_out_of_order :
  exists s, Reachable s
            /\ refs s = [refB; refA]
            /\ inDocumentOrder (refs s) = false.
Proof.
  exists {| activeRef := Some refA; refs := [refB; refA] |}.
  split; [|split; reflexivity].
  apply (reach_register {| activeRef := Some refA; refs := [refA] |} refB);
    [|reflexivity].
  apply (reach_register initialState refA); [apply reach_init|reflexivity].
Qed.

(** C2, as stated, is false: [setFocus] of a ref that is not registered is
    not ignored. *)
Lemma setFocus_unregistered_not_ignored :
  ~ (forall s h, ~ In h (refs s) ->
       reducer s (setFocus h) = Returns s /\ reducer s (unregister h) = Returns s).
Proof.
  intros H. destruct (H initialState refA) as [Hset _].
  - simpl. tauto.
  - discriminate Hset.
Qed.

(** C2, amended: for a ref that is not in [refs], [unregister] returns the
    state unchanged, and [setFocus] raises no error either but makes the ref
    the active one, leaving [refs] as they are. *)
Theorem unregistered_handle_ops s h :
  ~ In h (refs s) ->
  reducer s (unregister h) = Returns s
  /\ reducer s (setFocus h) = Returns {| activeRef := Some h; refs := refs s |}.
Proof.
  intros Hnot. split; [|reflexivity].
  unfold reducer, unregister; cbn [type payload].
  rewrite (findIndex_missing _ _ Hnot). reflexivity.
Qed.

Lemma unregistered_handle_ops_witness :
  ~ In refB (refs {| activeRef := Some refA; refs := [refA] |})
  /\ reducer {| activeRef := Some refA; refs := [refA] |} (unregister refB)
     = Returns {| activeRef := Some refA; refs := [refA] |}
  /\ reducer {| activeRef := Some refA; refs := [refA] |} (setFocus refB)
     = Returns {| activeRef := Some refB; refs := [refA] |}.
Proof.
  assert (Hnot : ~ In refB (refs {| activeRef := Some refA; refs := [refA] |})).
  { simpl. intros [H|[]]. discriminate H. }
  split; [exact Hnot|].
  exact (unregistered_handle_ops {| activeRef := Some refA; refs := [refA] |}
           refB Hnot).
Defined.

(** C3, as stated, is false: after [setFocus] of a ref that is not
    registered, that ref is the active one, and [unregister] of it returns
    the state as it is; the active ref is then neither [null] nor one of
    [refs]. *)
Lemma unregister_active_unregistered :
  dispatchAll initialState [register refB; setFocus refA]
  = Returns {| activeRef := Some refA; refs := [refB] |}
  /\ reducer {| activeRef := Some refA; refs := [refB] |} (unregister refA)
     = Returns {| activeRef := Some refA; refs := [refB] |}
  /\ ~ In refA [refB]
  /\ Some refA <> @None Ref.
Proof.
  split; [reflexivity|]. split; [reflexivity|]. split; [|discriminate].
  simpl. intros [H|[]]. discriminate H.
Qed.

(** C3, amended: in a state whose active ref is the registered ref [h],
    [unregister h] takes [h] out of [refs] at its index [n]; the active ref
    becomes the ref now at index [n], or the last ref when [n] is past the
    end, or [null] when no ref is left.  The new active ref is in every case
    [null] with an empty registry or one of the remaining refs. *)
Theorem unregister_active_reassigns s h :
  activeRef s = Some h -> In h (refs s) ->
  exists n s',
    findIndex (fun r => ref_eqb r h) (refs s) = Z.of_nat n
    /\ nth_error (refs s) n = Some h
    /\ reducer s (unregister h) = Returns s'
    /\ refs s' = firstn n (refs s) ++ skipn (S n) (refs s)
    /\ (Z.of_nat n < js_length (refs s') ->
        exists r, activeRef s' = Some r
                  /\ js_index (refs s') (Z.of_nat n) = Some r)
    /\ (js_length (refs s') <= Z.of_nat n -> refs s' <> [] ->
        exists r, activeRef s' = Some r
                  /\ js_index (refs s') (js_length (refs s') - 1) = Some r)
    /\ (refs s' = [] -> activeRef s' = None)
    /\ activeValid s'.
Proof.
  intros Hact Hin.
  assert (Hv : activeValid s) by (unfold activeValid; rewrite Hact; exact Hin).
  destruct (findIndex_present _ _ Hin) as (n & E & Hn).
  pose proof (unregister_present s h n E Hn) as Hr. cbv zeta in Hr.
  rewrite Hact in Hr. simpl opt_ref_eqb in Hr. rewrite ref_eqb_refl in Hr.
  set (rest := firstn n (refs s) ++ skipn (S n) (refs s)) in *.
  pose proof (js_length_nonneg rest) as Hlen.
  eexists n, _. split; [exact E|]. split; [exact Hn|]. split; [exact Hr|].
  cbn [refs activeRef]. split; [reflexivity|].
  split; [|split; [|split]].
  - intros Hlt. destruct (Z.geb_spec (Z.of_nat n) (js_length rest)); [lia|].
    destruct (js_index_in_range rest (Z.of_nat n)) as (y & Ey & _); [lia|].
    exists y. split; assumption.
  - intros Hge Hne. destruct (Z.geb_spec (Z.of_nat n) (js_length rest)); [|lia].
    destruct (js_index_in_range rest (js_length rest - 1)) as (y & Ey & _).
    + destruct rest; [congruence|]. unfold js_length in *; cbn [List.length] in *; lia.
    + exists y. split; assumption.
  - intros Hnil. rewrite Hnil.
    destruct (Z.of_nat n >=? js_length (@nil Ref));
      apply js_index_out_of_range; unfold js_length; simpl; lia.
  - apply (unregister_activeValid s h); [exact Hv|exact Hr].
Qed.

Lemma unregister_active_reassigns_witness :
  exists n s',
    findIndex (fun r => ref_eqb r refB) [refA; refB; refC] = Z.of_nat n
    /\ nth_error [refA; refB; refC] n = Some refB
    /\ reducer {| activeRef := Some refB; refs := [refA; refB; refC] |}
               (unregister refB) = Returns s'
    /\ refs s' = firstn n [refA; refB; refC] ++ skipn (S n) [refA; refB; refC]
    /\ (Z.of_nat n < js_length (refs s') ->
        exists r, activeRef s' = Some r
                  /\ js_index (refs s') (Z.of_nat n) = Some r)
    /\ (js_length (refs s') <= Z.of_nat n -> refs s' <> [] ->
        exists r, activeRef s' = Some r
                  /\ js_index (refs s') (js_length (refs s') - 1) = Some r)
    /\ (refs s' = [] -> activeRef s' = None)
    /\ activeValid s'.
Proof.
  apply (unregister_active_reassigns
           {| activeRef := Some refB; refs := [refA; refB; refC] |} refB).
  - reflexivity.
  - simpl. right. left. reflexivity.
Defined.

(** C7: registering into an empty registry makes the ref the active one (and
    the only registered one), whatever [activeRef] was before. *)
Theorem register_first_becomes_active s r :
  refs s = [] ->
  reducer s (register r) = Returns {| activeRef := Some r; refs := [r] |}.
Proof.
  intros Hempty. unfold reducer, register; cbn [type payload].
  rewrite Hempty. reflexivity.
Qed.

Lemma register_first_becomes_active_witness :
  refs initialState = []
  /\ reducer initialState (register refB)
     = Returns {| activeRef := Some refB; refs := [refB] |}.
Proof.
  split; [reflexivity|].
  apply (register_first_becomes_active initialState refB). reflexivity.
Defined.

(** C4 (fails on the code): two distinct refs registered in document order
    end up in the opposite order. *)
Theorem register_in_document_order_misplaced :
  dispatchAll initialState [register refA; register refB]
  = Returns {| activeRef := Some refA; refs := [refB; refA] |}
  /\ current refA <> current refB
  /\ (docIndex (current refA) < docIndex (current refB))%nat
  /\ inDocumentOrder [refB; refA] = false.
Proof.
  split; [reflexivity|]. split; [discriminate|]. split; [simpl; lia|reflexivity].
Qed.

(** * Duplicate registration *)

Lemma inDocumentOrder_tail a rs :
  inDocumentOrder (a :: rs) = true -> inDocumentOrder rs = true.
Proof.
  destruct rs as [|b rs]; [reflexivity|].
  cbn [inDocumentOrder]. intros H. apply andb_true_iff in H as [_ H]. exact H.
Qed.

Lemma inDocumentOrder_head a rs b :
  inDocumentOrder (a :: rs) = true -> In b rs ->
  (docIndex (current a) <= docIndex (current b))%nat.
Proof.
  revert a; induction rs as [|c rs IH]; intros a Hs Hin; [destruct Hin|].
  cbn [inDocumentOrder] in Hs. apply andb_true_iff in Hs as [Hac Hs].
  apply Nat.leb_le in Hac. destruct Hin as [<-|Hin]; [exact Hac|].
  specialize (IH c Hs Hin). lia.
Qed.

Lemma inDocumentOrder_nth rs : inDocumentOrder rs = true ->
  forall i j a b, (i <= j)%nat ->
    nth_error rs i = Some a -> nth_error rs j = Some b ->
    (docIndex (current a) <= docIndex (current b))%nat.
Proof.
  induction rs as [|c rs IH]; intros Hs i j a b Hij Ha Hb.
  - destruct i; discriminate Ha.
  - destruct i as [|i], j as [|j]; simpl in Ha, Hb.
    + assert (a = b) by congruence. subst b. lia.
    + assert (c = a) by congruence. subst c.
      apply (inDocumentOrder_head a rs b Hs).
      eapply nth_error_In; eassumption.
    + lia.
    + apply (IH (inDocumentOrder_tail _ _ Hs) i j); [lia|assumption|assumption].
Qed.

(** On refs in document order the binary search finds a node that is
    there. *)
Lemma search_finds fuel rs h : inDocumentOrder rs = true ->
  forall left right index,
    0 <= left -> right < js_length rs ->
    right - left + 1 <= Z.of_nat fuel ->
    (exists i r, left <= i <= right /\ js_index rs i = Some r
                 /\ current r = current h) ->
    search fuel rs h left right index = Returns AlreadyPresent.
Proof.
  intros Hs. induction fuel as [|fuel IH];
    intros left right index Hl Hr Hfuel (i & r & Hi & Er & Ecur).
  - lia.
  - cbn [search]. destruct (Z.leb_spec left right) as [Hle|Hgt]; [|lia].
    pose proof (midpoint_bounds left right Hle) as Hmid.
    set (mid := (left + right) / 2) in *.
    destruct (get_ref_in_range rs mid) as (m & Em & _); [lia|].
    rewrite Em; cbn [bind]. cbv zeta.
    destruct (node_eqb (current m) (current h)) eqn:Eeq; [reflexivity|].
    assert (Hne : docIndex (current m) <> docIndex (current h))
      by (apply Nat.eqb_neq; exact Eeq).
    unfold get_ref in Em.
    destruct (js_index rs mid) as [m'|] eqn:Emid; [|discriminate].
    apply Returns_inj in Em; subst m'.
    apply js_index_Some in Emid as [_ Hm].
    pose proof Er as Er'. apply js_index_Some in Er' as [_ Hr'].
    rewrite preceding_bit.
    destruct (Nat.ltb_spec (docIndex (current m)) (docIndex (current h)))
      as [Hlt|Hge].
    + apply IH; [lia|lia|lia|]. exists i, r. split; [|split; assumption].
      destruct (Z_le_gt_dec i mid) as [Hle'|Hgt']; [|lia].
      pose proof (inDocumentOrder_nth rs Hs (Z.to_nat i) (Z.to_nat mid) r m
                    ltac:(lia) Hr' Hm) as Hord.
      rewrite Ecur in Hord. lia.
    + apply IH; [lia|lia|lia|]. exists i, r. split; [|split; assumption].
      destruct (Z_le_gt_dec mid i) as [Hle'|Hgt']; [|lia].
      pose proof (inDocumentOrder_nth rs Hs (Z.to_nat mid) (Z.to_nat i) m r
                    ltac:(lia) Hm Hr') as Hord.
      rewrite Ecur in Hord. lia.
Qed.

(** Where [refs] are in document order, registering a ref again changes
    nothing. *)
Lemma register_present_in_order s h :
  inDocumentOrder (refs s) = true -> In h (refs s) ->
  reducer s (register h) = Returns s.
Proof.
  intros Hs Hin. apply In_nth_error in Hin as [n Hn].
  assert (Hlt : (n < List.length (refs s))%nat)
    by (apply nth_error_Some; congruence).
  unfold reducer, register; cbn [type payload].
  destruct (Z.eqb_spec (js_length (refs s)) 0) as [E|_];
    [unfold js_length in E; lia|].
  rewrite (search_finds _ _ _ Hs); [reflexivity| | | |];
    try (unfold js_length; lia).
  exists (Z.of_nat n), h. split; [unfold js_length; lia|].
  split; [|reflexivity]. rewrite js_index_of_nat. exact Hn.
Qed.

(** C6 (fails on the code): after registering [refA] and [refB] in document
    order the registry contains [refA], and registering [refA] once more
    inserts it a second time. *)
Theorem register_duplicate_inserted :
  dispatchAll initialState [register refA; register refB]
  = Returns {| activeRef := Some refA; refs := [refB; refA] |}
  /\ In refA [refB; refA]
  /\ reducer {| activeRef := Some refA; refs := [refB; refA] |} (register refA)
     = Returns {| activeRef := Some refA; refs := [refA; refB; refA] |}.
Proof.
  split; [reflexivity|]. split; [simpl; tauto|reflexivity].
Qed.

(** * The key-down handler *)

Lemma nonempty_length (rs : list Ref) : rs <> [] -> (js_length rs >? 0) = true.
Proof.
  intros H. destruct rs; [congruence|].
  unfold js_length; cbn [List.length]. apply Z.gtb_lt. lia.
Qed.

Lemma focus_in_range rs i :
  0 <= i < js_length rs ->
  exists r, js_index rs i = Some r /\ focus rs i = Returns [r].
Proof.
  intros H. destruct (js_index_in_range rs i H) as (r & E & _).
  exists r. split; [exact E|]. unfold focus, get_ref. rewrite E. reflexivity.
Qed.

(** The guard of the handler, for a target that is no text input. *)
Lemma target_guard tag :
  tag <> "INPUT"%string -> tag <> "TEXTAREA"%string ->
  negb (String.eqb tag "INPUT") && negb (String.eqb tag "TEXTAREA") = true.
Proof.
  intros H1 H2. apply String.eqb_neq in H1, H2. rewrite H1, H2. reflexivity.
Qed.

Lemma home_focuses_first props s tag :
  tag <> "INPUT"%string -> tag <> "TEXTAREA"%string ->
  handleHomeEnd props = true -> refs s <> [] ->
  exists first, js_index (refs s) 0 = Some first
    /\ onKeyDownHandler props s (mkEvent tag Key.HOME)
       = Returns (handled s [first]).
Proof.
  intros H1 H2 Hp Hne. handler_start.
  rewrite (target_guard tag H1 H2), Hp, (nonempty_length _ Hne).
  pose proof (nonempty_length _ Hne) as Hlen. apply Z.gtb_lt in Hlen.
  destruct (focus_in_range (refs s) 0) as (r & E & Ef); [lia|].
  exists r. split; [exact E|]. rewrite Ef. reflexivity.
Qed.

Lemma end_focuses_last props s tag :
  tag <> "INPUT"%string -> tag <> "TEXTAREA"%string ->
  handleHomeEnd props = true -> refs s <> [] ->
  exists last, js_index (refs s) (js_length (refs s) - 1) = Some last
    /\ onKeyDownHandler props s (mkEvent tag Key.END_)
       = Returns (handled s [last]).
Proof.
  intros H1 H2 Hp Hne. handler_start.
  rewrite (target_guard tag H1 H2), Hp, (nonempty_length _ Hne).
  pose proof (nonempty_length _ Hne) as Hlen. apply Z.gtb_lt in Hlen.
  destruct (focus_in_range (refs s) (js_length (refs s) - 1))
    as (r & E & Ef); [lia|].
  exists r. split; [exact E|]. rewrite Ef. reflexivity.
Qed.

Lemma arrow_up_focuses_previous props s tag :
  tag <> "INPUT"%string -> tag <> "TEXTAREA"%string ->
  handleUpDown props = true ->
  0 < indexOf (refs s) (activeRef s) < js_length (refs s) ->
  exists prev,
    js_index (refs s) (indexOf (refs s) (activeRef s) - 1) = Some prev
    /\ onKeyDownHandler props s (mkEvent tag Key.ARROW_UP)
       = Returns (handled s [prev]).
Proof.
  intros H1 H2 Hp Hidx. handler_start.
  rewrite (target_guard tag H1 H2), Hp.
  replace (js_length (refs s) >? 0) with true by (symmetry; apply Z.gtb_lt; lia).
  cbv zeta.
  replace (indexOf (refs s) (activeRef s) >? 0) with true
    by (symmetry; apply Z.gtb_lt; lia).
  destruct (focus_in_range (refs s) (indexOf (refs s) (activeRef s) - 1))
    as (r & E & Ef); [lia|].
  exists r. split; [exact E|]. rewrite Ef. reflexivity.
Qed.

Lemma arrow_down_focuses_next props s tag :
  tag <> "INPUT"%string -> tag <> "TEXTAREA"%string ->
  handleUpDown props = true -> refs s <> [] ->
  -1 <= indexOf (refs s) (activeRef s) < js_length (refs s) - 1 ->
  exists next,
    js_index (refs s) (indexOf (refs s) (activeRef s) + 1) = Some next
    /\ onKeyDownHandler props s (mkEvent tag Key.ARROW_DOWN)
       = Returns (handled s [next]).
Proof.
  intros H1 H2 Hp Hne Hidx. handler_start.
  rewrite (target_guard tag H1 H2), Hp, (nonempty_length _ Hne). cbv zeta.
  replace (indexOf (refs s) (activeRef s) <? js_length (refs s) - 1) with true
    by (symmetry; apply Z.ltb_lt; lia).
  destruct (focus_in_range (refs s) (indexOf (refs s) (activeRef s) + 1))
    as (r & E & Ef); [lia|].
  exists r. split; [exact E|]. rewrite Ef. reflexivity.
Qed.

(** Whatever the props and the target, ArrowUp moves no focus when the active
    ref is at index 0 or is not registered. *)
Lemma arrow_up_no_move props s tag :
  indexOf (refs s) (activeRef s) <= 0 ->
  exists r, onKeyDownHandler props s (mkEvent tag Key.ARROW_UP) = Returns r
            /\ focusCalls r = [] /\ stateAfter r = s.
Proof.
  intros Hidx. handler_start.
  replace (indexOf (refs s) (activeRef s) >? 0) with false
    by (symmetry; rewrite Z.gtb_ltb; apply Z.ltb_ge; lia).
  destruct (negb _ && negb _), (handleUpDown props), (js_length (refs s) >? 0);
    eexists; (split; [reflexivity|split; reflexivity]).
Qed.

(** Whatever the props and the target, ArrowDown moves no focus when the
    active ref is at the last index. *)
Lemma arrow_down_no_move props s tag :
  js_length (refs s) - 1 <= indexOf (refs s) (activeRef s) ->
  exists r, onKeyDownHandler props s (mkEvent tag Key.ARROW_DOWN) = Returns r
            /\ focusCalls r = [] /\ stateAfter r = s.
Proof.
  intros Hidx. handler_start.
  replace (indexOf (refs s) (activeRef s) <? js_length (refs s) - 1) with false
    by (symmetry; apply Z.ltb_ge; lia).
  destruct (negb _ && negb _), (handleUpDown props), (js_length (refs s) >? 0);
    eexists; (split; [reflexivity|split; reflexivity]).
Qed.

(** * The claims about the key-down handler *)

(** C5: with the active ref at index 0 an ArrowUp, and with the active ref at
    the last index an ArrowDown, calls no [focus()] and leaves the state as it
    is, whatever the props and the event target. *)
Theorem moveFocus_stops_at_ends props s tag k :
  (k = Key.ARROW_UP /\ indexOf (refs s) (activeRef s) = 0)
  \/ (k = Key.ARROW_DOWN
      /\ indexOf (refs s) (activeRef s) = js_length (refs s) - 1) ->
  exists r, onKeyDownHandler props s (mkEvent tag k) = Returns r
            /\ focusCalls r = [] /\ stateAfter r = s.
Proof.
  intros [[-> Hidx]|[-> Hidx]].
  - apply arrow_up_no_move. lia.
  - apply arrow_down_no_move. lia.
Qed.

Lemma moveFocus_stops_at_ends_witness :
  (exists r,
     onKeyDownHandler (mkProps true true false)
       {| activeRef := Some refA; refs := [refA; refB; refC] |}
       (mkEvent "DIV" Key.ARROW_UP) = Returns r
     /\ focusCalls r = []
     /\ stateAfter r = {| activeRef := Some refA; refs := [refA; refB; refC] |})
  /\ (exists r,
     onKeyDownHandler (mkProps true true false)
       {| activeRef := Some refC; refs := [refA; refB; refC] |}
       (mkEvent "DIV" Key.ARROW_DOWN) = Returns r
     /\ focusCalls r = []
     /\ stateAfter r = {| activeRef := Some refC; refs := [refA; refB; refC] |}).
Proof.
  split.
  - apply (moveFocus_stops_at_ends (mkProps true true false)
             {| activeRef := Some refA; refs := [refA; refB; refC] |}
             "DIV" Key.ARROW_UP).
    left. split; reflexivity.
  - apply (moveFocus_stops_at_ends (mkProps true true false)
             {| activeRef := Some refC; refs := [refA; refB; refC] |}
             "DIV" Key.ARROW_DOWN).
    right. split; reflexivity.
Defined.

(** C8, as stated, is false: without the [handleHomeEnd] prop a Home key on
    a non-empty registry focuses nothing and is not handled at all. *)
Lemma home_without_handleHomeEnd :
  js_index (refs {| activeRef := Some refB; refs := [refA; refB] |}) 0
  = Some refA
  /\ onKeyDownHandler (mkProps false true false)
       {| activeRef := Some refB; refs := [refA; refB] |}
       (mkEvent "DIV" Key.HOME)
     = Returns (notHandled (mkProps false true false)
                  {| activeRef := Some refB; refs := [refA; refB] |})
  /\ focusCalls (notHandled (mkProps false true false)
                   {| activeRef := Some refB; refs := [refA; refB] |})
     <> [refA].
Proof. split; [reflexivity|]. split; [reflexivity|discriminate]. Qed.

(** C8, amended: on a non-empty registry, for an event whose target is not
    an INPUT or TEXTAREA element: when the provider has [handleHomeEnd], Home
    focuses the first ref and End the last one; when it has [handleUpDown] and
    the active ref is registered at an interior index, ArrowUp focuses the ref
    at the index before and ArrowDown the ref at the index after. *)
Theorem moveFocus_when_enabled props s tag :
  refs s <> [] -> tag <> "INPUT"%string -> tag <> "TEXTAREA"%string ->
  (handleHomeEnd props = true ->
     (exists first, js_index (refs s) 0 = Some first
        /\ onKeyDownHandler props s (mkEvent tag Key.HOME)
           = Returns (handled s [first]))
     /\ (exists last, js_index (refs s) (js_length (refs s) - 1) = Some last
        /\ onKeyDownHandler props s (mkEvent tag Key.END_)
           = Returns (handled s [last])))
  /\ (handleUpDown props = true ->
      0 < indexOf (refs s) (activeRef s) < js_length (refs s) - 1 ->
     (exists prev,
        js_index (refs s) (indexOf (refs s) (activeRef s) - 1) = Some prev
        /\ onKeyDownHandler props s (mkEvent tag Key.ARROW_UP)
           = Returns (handled s [prev]))
     /\ (exists next,
        js_index (refs s) (indexOf (refs s) (activeRef s) + 1) = Some next
        /\ onKeyDownHandler props s (mkEvent tag Key.ARROW_DOWN)
           = Returns (handled s [next]))).
Proof.
  intros Hne H1 H2. split.
  - intros Hp. split.
    + apply home_focuses_first; assumption.
    + apply end_focuses_last; assumption.
  - intros Hp Hidx. split.
    + apply arrow_up_focuses_previous; [assumption|assumption|assumption|lia].
    + apply arrow_down_focuses_next;
        [assumption|assumption|assumption|assumption|lia].
Qed.

Lemma moveFocus_when_enabled_witness :
  ((exists first, js_index [refA; refB; refC] 0 = Some first
      /\ onKeyDownHandler (mkProps true true false)
           {| activeRef := Some refB; refs := [refA; refB; refC] |}
           (mkEvent "DIV" Key.HOME)
         = Returns (handled {| activeRef := Some refB;
                               refs := [refA; refB; refC] |} [first]))
   /\ (exists last, js_index [refA; refB; refC] 2 = Some last
      /\ onKeyDownHandler (mkProps true true false)
           {| activeRef := Some refB; refs := [refA; refB; refC] |}
           (mkEvent "DIV" Key.END_)
         = Returns (handled {| activeRef := Some refB;
                               refs := [refA; refB; refC] |} [last])))
  /\ ((exists prev, js_index [refA; refB; refC] 0 = Some prev
      /\ onKeyDownHandler (mkProps true true false)
           {| activeRef := Some refB; refs := [refA; refB; refC] |}
           (mkEvent "DIV" Key.ARROW_UP)
         = Returns (handled {| activeRef := Some refB;
                               refs := [refA; refB; refC] |} [prev]))
   /\ (exists next, js_index [refA; refB; refC] 2 = Some next
      /\ onKeyDownHandler (mkProps true true false)
           {| activeRef := Some refB; refs := [refA; refB; refC] |}
           (mkEvent "DIV" Key.ARROW_DOWN)
         = Returns (handled {| activeRef := Some refB;
                               refs := [refA; refB; refC] |} [next]))).
Proof.
  destruct (moveFocus_when_enabled (mkProps true true false)
              {| activeRef := Some refB; refs := [refA; refB; refC] |} "DIV")
    as [Hhome Harrow]; try discriminate.
  split.
  - apply Hhome. reflexivity.
  - apply Harrow; [reflexivity|]. vm_compute. split; reflexivity.
Defined.

(** C9, as stated, is false: without the [handleUpDown] prop an ArrowDown
    focuses nothing, also when the active ref is not registered. *)
Lemma arrow_down_without_handleUpDown :
  indexOf (refs {| activeRef := Some refC; refs := [refA; refB] |})
          (activeRef {| activeRef := Some refC; refs := [refA; refB] |}) = -1
  /\ onKeyDownHandler (mkProps true false false)
       {| activeRef := Some refC; refs := [refA; refB] |}
       (mkEvent "DIV" Key.ARROW_DOWN)
     = Returns (notHandled (mkProps true false false)
                  {| activeRef := Some refC; refs := [refA; refB] |})
  /\ focusCalls (notHandled (mkProps true false false)
                   {| activeRef := Some refC; refs := [refA; refB] |})
     <> [refA].
Proof. split; [reflexivity|]. split; [reflexivity|discriminate]. Qed.

(** C9, amended: on a non-empty registry whose active ref is not in [refs]
    (its index is -1), ArrowUp focuses nothing; ArrowDown focuses the first
    ref when the provider has [handleUpDown] and the event's target is not an
    INPUT or TEXTAREA element. *)
Theorem arrows_with_unregistered_active props s tag :
  refs s <> [] -> indexOf (refs s) (activeRef s) = -1 ->
  (exists r, onKeyDownHandler props s (mkEvent tag Key.ARROW_UP) = Returns r
             /\ focusCalls r = [] /\ stateAfter r = s)
  /\ (handleUpDown props = true ->
      tag <> "INPUT"%string -> tag <> "TEXTAREA"%string ->
      exists first, js_index (refs s) 0 = Some first
        /\ onKeyDownHandler props s (mkEvent tag Key.ARROW_DOWN)
           = Returns (handled s [first])).
Proof.
  intros Hne Hidx. split.
  - apply arrow_up_no_move. lia.
  - intros Hp H1 H2.
    pose proof (nonempty_length _ Hne) as Hlen. apply Z.gtb_lt in Hlen.
    destruct (arrow_down_focuses_next props s tag H1 H2 Hp Hne)
      as (next & E & Hr); [lia|].
    rewrite Hidx in E. exists next. split; assumption.
Qed.

Lemma arrows_with_unregistered_active_witness :
  (exists r,
     onKeyDownHandler (mkProps false true false)
       {| activeRef := Some refC; refs := [refA; refB] |}
       (mkEvent "DIV" Key.ARROW_UP) = Returns r
     /\ focusCalls r = []
     /\ stateAfter r = {| activeRef := Some refC; refs := [refA; refB] |})
  /\ (exists first, js_index [refA; refB] 0 = Some first
      /\ onKeyDownHandler (mkProps false true false)
           {| activeRef := Some refC; refs := [refA; refB] |}
           (mkEvent "DIV" Key.ARROW_DOWN)
         = Returns (handled {| activeRef := Some refC; refs := [refA; refB] |}
                            [first])).
Proof.
  destruct (arrows_with_unregistered_active (mkProps false true false)
              {| activeRef := Some refC; refs := [refA; refB] |} "DIV")
    as [Hup Hdown]; [discriminate|reflexivity|].
  split; [exact Hup|].
  apply Hdown; [reflexivity|discriminate|discriminate].
Defined.

(** C10: for an event whose target is an INPUT or a TEXTAREA element the
    handler calls no [focus()], prevents nothing and leaves the state as it
    is, whichever key was pressed; the event only goes to [onKeyDown] when
    that callback was given. *)
Theorem text_input_target_untouched props s k :
  onKeyDownHandler props s (mkEvent "INPUT" k) = Returns (notHandled props s)
  /\ onKeyDownHandler props s (mkEvent "TEXTAREA" k)
     = Returns (notHandled props s).
Proof. split; reflexivity. Qed.

(** * More about the reducer *)

(** In every reachable state with a non-empty registry exactly one ref is
    active, and it is a registered one; with an empty registry no ref is
    active. *)
Theorem reachable_one_active s :
  Reachable s ->
  (refs s <> [] ->
   exists r, In r (refs s) /\ forall x, isActive s x = true <-> x = r)
  /\ (refs s = [] -> forall x, isActive s x = false).
Proof.
  intros Hr. apply Reachable_activeValid in Hr. unfold activeValid in Hr.
  unfold isActive. destruct (activeRef s) as [a|] eqn:Ea; split.
  - intros _. exists a. split; [exact Hr|]. intros x.
    rewrite opt_ref_eqb_eq. split; congruence.
  - intros Hnil. rewrite Hnil in Hr. destruct Hr.
  - intros Hne. contradiction.
  - intros _ x. reflexivity.
Qed.

Lemma reachable_one_active_witness :
  (refs {| activeRef := Some refA; refs := [refB; refA] |} <> [] ->
   exists r, In r (refs {| activeRef := Some refA; refs := [refB; refA] |})
     /\ forall x, isActive {| activeRef := Some refA; refs := [refB; refA] |} x
                  = true <-> x = r)
  /\ (refs {| activeRef := Some refA; refs := [refB; refA] |} = [] ->
      forall x, isActive {| activeRef := Some refA; refs := [refB; refA] |} x
                = false).
Proof.
  apply (reachable_one_active {| activeRef := Some refA; refs := [refB; refA] |}).
  apply (reach_register {| activeRef := Some refA; refs := [refA] |} refB);
    [|reflexivity].
  apply (reach_register initialState refA); [apply reach_init|reflexivity].
Defined.

(** Registering into a non-empty registry never removes or reorders a ref
    and never touches [activeRef]: the state is unchanged, or the new ref
    is put at one place of [refs]. *)
Theorem register_only_inserts s r :
  refs s <> [] ->
  exists s', reducer s (register r) = Returns s'
    /\ activeRef s' = activeRef s
    /\ (refs s' = refs s
        \/ exists n, (n <= List.length (refs s))%nat
             /\ refs s' = firstn n (refs s) ++ r :: skipn n (refs s)).
Proof.
  intros Hne. destruct (register_returns s r) as [s' Hr].
  exists s'. split; [exact Hr|].
  destruct (register_nonempty s r s' Hne Hr) as [->|(n & Hn & ->)].
  - split; [reflexivity|left; reflexivity].
  - split; [reflexivity|]. right. exists n. split; [exact Hn|reflexivity].
Qed.

Lemma register_only_inserts_witness :
  exists s', reducer {| activeRef := Some refC; refs := [refC] |} (register refA)
             = Returns s'
    /\ activeRef s' = Some refC
    /\ (refs s' = [refC]
        \/ exists n, (n <= List.length [refC])%nat
             /\ refs s' = firstn n [refC] ++ refA :: skipn n [refC]).
Proof.
  apply (register_only_inserts {| activeRef := Some refC; refs := [refC] |} refA).
  discriminate.
Defined.

(** The first ref that registers stays the active one through any number of
    later registrations. *)
Lemma registrations_keep_active l : forall s,
  refs s <> [] ->
  exists s', dispatchAll s (map register l) = Returns s'
             /\ activeRef s' = activeRef s /\ refs s' <> [].
Proof.
  induction l as [|r l IH]; intros s Hne; cbn [map dispatchAll].
  - exists s. repeat split; assumption.
  - destruct (register_only_inserts s r Hne) as (s1 & Hr & Hact & Hrefs).
    rewrite Hr; cbn [bind].
    destruct (IH s1) as (s' & Hd & Hact' & Hne').
    + destruct Hrefs as [->|(n & _ & ->)]; [exact Hne|].
      intros H. apply app_eq_nil in H as [_ H]. discriminate H.
    + exists s'. repeat split; [exact Hd|congruence|exact Hne'].
Qed.

Theorem first_registered_stays_active r l :
  exists s, dispatchAll initialState (map register (r :: l)) = Returns s
            /\ activeRef s = Some r /\ isActive s r = true.
Proof.
  cbn [map dispatchAll].
  change (reducer initialState (register r))
    with (Returns {| activeRef := Some r; refs := [r] |}).
  cbn [bind].
  destruct (registrations_keep_active l {| activeRef := Some r; refs := [r] |})
    as (s & Hd & Hact & _); [discriminate|].
  exists s. split; [exact Hd|]. split; [exact Hact|].
  unfold isActive. rewrite Hact. apply opt_ref_eqb_eq. reflexivity.
Qed.

(** ** Where the search puts a ref *)

Lemma search_done fuel rs r left right index :
  right < left -> search fuel rs r left right index = Returns (InsertAt index).
Proof.
  intros H. destruct fuel; cbn [search];
    destruct (Z.leb_spec left right); (lia || reflexivity).
Qed.

Lemma search_probe fuel rs r left right index m :
  left <= right ->
  get_ref rs ((left + right) / 2) = Returns m ->
  position m <> position r ->
  search (S fuel) rs r left right index
  = if Nat.ltb (position m) (position r)
    then search fuel rs r ((left + right) / 2 + 1) right ((left + right) / 2)
    else search fuel rs r left ((left + right) / 2 - 1) ((left + right) / 2).
Proof.
  intros Hle Em Hne. cbn [search].
  destruct (Z.leb_spec left right); [|lia].
  rewrite Em; cbn [bind]. cbv zeta.
  replace (node_eqb (current m) (current r)) with false
    by (symmetry; apply Nat.eqb_neq; exact Hne).
  rewrite preceding_bit. reflexivity.
Qed.

Lemma search_all_left rs r :
  (forall x, In x rs -> (position r < position x)%nat) ->
  forall fuel right index,
    0 <= right < js_length rs -> right + 1 <= Z.of_nat fuel ->
    search fuel rs r 0 right index = Returns (InsertAt 0).
Proof.
  intros Hall. induction fuel as [|fuel IH]; intros right index Hr Hf; [lia|].
  pose proof (midpoint_bounds 0 right ltac:(lia)) as Hmid.
  destruct (get_ref_in_range rs ((0 + right) / 2)) as (m & Em & Hin); [lia|].
  specialize (Hall m Hin).
  rewrite (search_probe fuel rs r 0 right index m); [|lia|exact Em|lia].
  destruct (Nat.ltb_spec (position m) (position r)) as [Hlt|_]; [lia|].
  destruct (Z.eq_dec ((0 + right) / 2) 0) as [E0|Hpos].
  - rewrite E0. apply search_done. lia.
  - apply IH; lia.
Qed.

Lemma search_all_right rs r :
  (forall x, In x rs -> (position x < position r)%nat) ->
  forall fuel left index,
    0 <= left < js_length rs -> js_length rs - left <= Z.of_nat fuel ->
    search fuel rs r left (js_length rs - 1) index
    = Returns (InsertAt (js_length rs - 1)).
Proof.
  intros Hall. induction fuel as [|fuel IH]; intros left index Hl Hf; [lia|].
  pose proof (midpoint_bounds left (js_length rs - 1) ltac:(lia)) as Hmid.
  set (mid := (left + (js_length rs - 1)) / 2) in *.
  destruct (get_ref_in_range rs mid) as (m & Em & Hin); [lia|].
  specialize (Hall m Hin).
  rewrite (search_probe fuel rs r left (js_length rs - 1) index m);
    [|lia|exact Em|lia].
  fold mid.
  destruct (Nat.ltb_spec (position m) (position r)) as [_|Hge]; [|lia].
  destruct (Z.eq_dec mid (js_length rs - 1)) as [E|Hlt].
  - rewrite E. apply search_done. lia.
  - apply IH; lia.
Qed.

(** A ref whose node precedes every registered node is put in front. *)
Theorem register_before_all s r :
  refs s <> [] ->
  (forall x, In x (refs s) -> (position r < position x)%nat) ->
  reducer s (register r)
  = Returns {| activeRef := activeRef s; refs := r :: refs s |}.
Proof.
  intros Hne Hall. unfold reducer, register; cbn [type payload].
  pose proof (nonempty_length _ Hne) as Hlen. apply Z.gtb_lt in Hlen.
  destruct (Z.eqb_spec (js_length (refs s)) 0) as [E|_]; [lia|].
  rewrite (search_all_left _ _ Hall); [|lia|unfold js_length; lia].
  cbn [bind]. unfold splice_insert.
  change (splice_start (refs s) 0) with (splice_start (refs s) (Z.of_nat 0)).
  rewrite splice_start_in_range by lia. reflexivity.
Qed.

Lemma register_before_all_witness :
  reducer {| activeRef := Some refC; refs := [refB; refC] |} (register refA)
  = Returns {| activeRef := Some refC; refs := [refA; refB; refC] |}.
Proof.
  apply (register_before_all
           {| activeRef := Some refC; refs := [refB; refC] |} refA).
  - discriminate.
  - intros x [<-|[<-|[]]]; unfold position; simpl; lia.
Defined.

(** A ref whose node follows every registered node is not appended: it is
    put in front of the last ref, so the result is out of document order. *)
Theorem register_after_all s r :
  refs s <> [] ->
  (forall x, In x (refs s) -> (position x < position r)%nat) ->
  reducer s (register r)
  = Returns {| activeRef := activeRef s;
               refs := removelast (refs s) ++ [r; last (refs s) r] |}
  /\ inDocumentOrder (removelast (refs s) ++ [r; last (refs s) r]) = false.
Proof.
  intros Hne Hall.
  pose proof (nonempty_length _ Hne) as Hlen. apply Z.gtb_lt in Hlen.
  destruct (exists_last Hne) as (l & z & El).
  assert (Hz : (position z < position r)%nat)
    by (apply Hall; rewrite El; apply in_or_app; right; left; reflexivity).
  split.
  - unfold reducer, register; cbn [type payload].
    destruct (Z.eqb_spec (js_length (refs s)) 0) as [E|_]; [lia|].
    rewrite (search_all_right _ _ Hall); [|lia|unfold js_length; lia].
    cbn [bind]. f_equal. f_equal. unfold splice_insert.
    replace (js_length (refs s) - 1) with (Z.of_nat (List.length l))
      by (rewrite El; unfold js_length; rewrite length_app; simpl; lia).
    rewrite splice_start_in_range
      by (rewrite El, length_app; simpl; lia).
    rewrite El, removelast_last, last_last.
    rewrite firstn_app, firstn_all, Nat.sub_diag. cbn [firstn].
    rewrite skipn_app, skipn_all, Nat.sub_diag. cbn [skipn].
    rewrite app_nil_r. reflexivity.
  - rewrite El, removelast_last, last_last. clear El Hall Hne Hlen.
    induction l as [|a l IH]; cbn [app inDocumentOrder].
    + replace (Nat.leb (docIndex (current r)) (docIndex (current z)))
        with false by (symmetry; apply Nat.leb_gt; exact Hz).
      reflexivity.
    + destruct (l ++ [r; z]) eqn:E; [destruct l; discriminate E|].
      rewrite IH. apply andb_false_r.
Qed.

Lemma register_after_all_witness :
  reducer {| activeRef := Some refA; refs := [refA; refB] |} (register refC)
  = Returns {| activeRef := Some refA;
               refs := removelast [refA; refB] ++ [refC; last [refA; refB] refC] |}
  /\ inDocumentOrder (removelast [refA; refB] ++ [refC; last [refA; refB] refC])
     = false.
Proof.
  apply (register_after_all
           {| activeRef := Some refA; refs := [refA; refB] |} refC).
  - discriminate.
  - intros x [<-|[<-|[]]]; unfold position; simpl; lia.
Defined.

(** Refs that register in reverse document order (each node before all the
    nodes registered so far) end up in document order: [refs] is the
    registration sequence reversed. *)
Lemma registrations_in_reverse_order l : forall s,
  refs s <> [] ->
  ForallOrdPairs (fun a b => (position b < position a)%nat) l ->
  (forall a x, In a l -> In x (refs s) -> (position a < position x)%nat) ->
  dispatchAll s (map register l)
  = Returns {| activeRef := activeRef s; refs := rev l ++ refs s |}.
Proof.
  induction l as [|r l IH]; intros s Hne Hord Hlow; cbn [map dispatchAll rev].
  - destruct s; reflexivity.
  - inversion Hord as [|? ? Hr Hl]; subst.
    rewrite register_before_all;
      [|exact Hne|intros x Hx; apply Hlow; [left; reflexivity|exact Hx]].
    cbn [bind]. rewrite IH; cbn [refs activeRef].
    + rewrite <- app_assoc. reflexivity.
    + discriminate.
    + exact Hl.
    + intros a x Ha [<-|Hx].
      * rewrite Forall_forall in Hr. apply Hr. exact Ha.
      * apply Hlow; [right; exact Ha|exact Hx].
Qed.

Lemma descending_rev_inDocumentOrder l :
  ForallOrdPairs (fun a b => (position b < position a)%nat) l ->
  inDocumentOrder (rev l) = true.
Proof.
  induction 1 as [|a l Ha _ IH]; [reflexivity|]. cbn [rev].
  assert (Hall : forall x, In x (rev l) -> (position x < position a)%nat).
  { intros x Hx. rewrite Forall_forall in Ha. apply Ha.
    apply in_rev. exact Hx. }
  revert IH Hall. generalize (rev l) as k. clear.
  induction k as [|b k IH]; intros Hs Hall; [reflexivity|].
  cbn [app inDocumentOrder]. destruct k as [|c k].
  - cbn [app]. rewrite andb_true_r. apply Nat.leb_le.
    specialize (Hall b (or_introl eq_refl)). unfold position in Hall. lia.
  - cbn [app]. cbn [inDocumentOrder] in Hs.
    apply andb_true_iff in Hs as [Hbc Hs]. rewrite Hbc. cbn [andb].
    apply IH; [exact Hs|]. intros x Hx. apply Hall. right. exact Hx.
Qed.

Theorem register_reverse_document_order r l :
  ForallOrdPairs (fun a b => (position b < position a)%nat) (r :: l) ->
  dispatchAll initialState (map register (r :: l))
  = Returns {| activeRef := Some r; refs := rev (r :: l) |}
  /\ inDocumentOrder (rev (r :: l)) = true.
Proof.
  intros Hord. split; [|apply descending_rev_inDocumentOrder; exact Hord].
  inversion Hord as [|? ? Hr Hl]; subst.
  cbn [map dispatchAll].
  change (reducer initialState (register r))
    with (Returns {| activeRef := Some r; refs := [r] |}).
  cbn [bind]. rewrite registrations_in_reverse_order; cbn [refs activeRef].
  - reflexivity.
  - discriminate.
  - exact Hl.
  - intros a x Ha [<-|[]]. rewrite Forall_forall in Hr. apply Hr. exact Ha.
Qed.

Lemma register_reverse_document_order_witness :
  dispatchAll initialState (map register [refC; refB; refA])
  = Returns {| activeRef := Some refC; refs := rev [refC; refB; refA] |}
  /\ inDocumentOrder (rev [refC; refB; refA]) = true.
Proof.
  apply (register_reverse_document_order refC [refB; refA]).
  repeat constructor; unfold position; simpl; lia.
Defined.

(** ** Mounting and unmounting *)

Lemma findIndex_inserted l r n :
  ~ In r l -> (n <= List.length l)%nat ->
  findIndex (fun x => ref_eqb x r) (firstn n l ++ r :: skipn n l) = Z.of_nat n
  /\ nth_error (firstn n l ++ r :: skipn n l) n = Some r.
Proof.
  intros Hnot Hn.
  assert (Hat : nth_error (firstn n l ++ r :: skipn n l) n = Some r).
  { rewrite nth_error_app2 by (rewrite firstn_length_le; lia).
    rewrite firstn_length_le, Nat.sub_diag by lia. reflexivity. }
  split; [|exact Hat].
  destruct (findIndex_spec (fun x => ref_eqb x r) (firstn n l ++ r :: skipn n l))
    as [[_ Hall]|(k & x & E & Hk & Hx & Hmin)].
  - specialize (Hall r). rewrite ref_eqb_refl in Hall.
    discriminate Hall. apply in_or_app. right. left. reflexivity.
  - rewrite E. f_equal. apply ref_eqb_eq in Hx; subst x.
    destruct (Nat.lt_trichotomy k n) as [Hlt|[Heq|Hgt]]; [|exact Heq|].
    + exfalso. apply Hnot.
      rewrite nth_error_app1 in Hk by (rewrite firstn_length_le; lia).
      apply nth_error_In in Hk. rewrite <- (firstn_skipn n l).
      apply in_or_app. left. exact Hk.
    + specialize (Hmin n r Hgt Hat). rewrite ref_eqb_refl in Hmin.
      discriminate.
Qed.

Lemma remove_inserted (l : list Ref) r n :
  (n <= List.length l)%nat ->
  firstn n (firstn n l ++ r :: skipn n l)
  ++ skipn (S n) (firstn n l ++ r :: skipn n l) = l.
Proof.
  intros Hn.
  assert (Hlen : List.length (firstn n l) = n) by (apply firstn_length_le; lia).
  rewrite firstn_app, Hlen, Nat.sub_diag. cbn [firstn].
  rewrite app_nil_r, firstn_firstn, Nat.min_id.
  rewrite skipn_app, Hlen.
  rewrite skipn_all2 by lia.
  replace (S n - n)%nat with 1%nat by lia. cbn [skipn app].
  apply firstn_skipn.
Qed.

Lemma unregistered_noop s h :
  ~ In h (refs s) -> reducer s (unregister h) = Returns s.
Proof.
  intros Hnot. unfold reducer, unregister; cbn [type payload].
  rewrite (findIndex_missing _ _ Hnot). reflexivity.
Qed.

Lemma dispatchAll_nil_after s a :
  (x <- reducer s a ;; dispatchAll x []) = reducer s a.
Proof. destruct (reducer s a); reflexivity. Qed.

(** Mounting and unmounting on a non-empty registry: registering a ref that
    is neither registered nor the active one and unregistering it again gives
    back the state there was, with the same [activeRef] and the same
    [refs]. *)
Theorem register_unregister_roundtrip s r :
  refs s <> [] -> activeRef s <> Some r -> ~ In r (refs s) ->
  dispatchAll s [register r; unregister r] = Returns s.
Proof.
  intros Hne Hactive Hnot. cbn [dispatchAll].
  destruct (register_returns s r) as [s1 Hr]. rewrite Hr; cbn [bind].
  assert (Hact : opt_ref_eqb (Some r) (activeRef s) = false).
  { destruct (opt_ref_eqb (Some r) (activeRef s)) eqn:E; [|reflexivity].
    apply opt_ref_eqb_eq in E. congruence. }
  destruct (register_nonempty s r s1 Hne Hr) as [->|(n & Hn & ->)].
  - rewrite dispatchAll_nil_after. apply unregistered_noop. exact Hnot.
  - destruct (findIndex_inserted (refs s) r n Hnot Hn) as [E Hat].
    rewrite (unregister_present
               {| activeRef := activeRef s;
                  refs := firstn n (refs s) ++ r :: skipn n (refs s) |}
               r n E Hat); cbn [refs activeRef bind].
    rewrite Hact, remove_inserted by exact Hn.
    destruct s; reflexivity.
Qed.

Lemma register_unregister_roundtrip_witness :
  dispatchAll {| activeRef := Some refC; refs := [refA; refC] |}
    [register refB; unregister refB]
  = Returns {| activeRef := Some refC; refs := [refA; refC] |}.
Proof.
  apply (register_unregister_roundtrip
           {| activeRef := Some refC; refs := [refA; refC] |} refB).
  - discriminate.
  - discriminate.
  - simpl. intros [H|[H|[]]]; discriminate H.
Defined.

(** Unregistering a registered ref that is not the active one takes its
    first occurrence out of [refs] and leaves [activeRef] alone. *)
Theorem unregister_inactive s h :
  In h (refs s) -> activeRef s <> Some h ->
  exists n,
    nth_error (refs s) n = Some h
    /\ (forall m, (m < n)%nat -> nth_error (refs s) m <> Some h)
    /\ reducer s (unregister h)
       = Returns {| activeRef := activeRef s;
                    refs := firstn n (refs s) ++ skipn (S n) (refs s) |}.
Proof.
  intros Hin Hact.
  destruct (findIndex_spec (fun r => ref_eqb r h) (refs s))
    as [[_ Hall]|(n & x & E & Hn & Hx & Hmin)].
  - specialize (Hall h Hin). rewrite ref_eqb_refl in Hall. discriminate.
  - apply ref_eqb_eq in Hx; subst x. exists n. split; [exact Hn|]. split.
    + intros m Hm Hm'. specialize (Hmin m h Hm Hm').
      rewrite ref_eqb_refl in Hmin. discriminate.
    + rewrite (unregister_present s h n E Hn).
      replace (opt_ref_eqb (Some h) (activeRef s)) with false; [reflexivity|].
      symmetry. destruct (opt_ref_eqb (Some h) (activeRef s)) eqn:Eq;
        [|reflexivity].
      apply opt_ref_eqb_eq in Eq. congruence.
Qed.

Lemma unregister_inactive_witness :
  exists n,
    nth_error [refA; refB; refC] n = Some refB
    /\ (forall m, (m < n)%nat -> nth_error [refA; refB; refC] m <> Some refB)
    /\ reducer {| activeRef := Some refA; refs := [refA; refB; refC] |}
               (unregister refB)
       = Returns {| activeRef := Some refA;
                    refs := firstn n [refA; refB; refC]
                            ++ skipn (S n) [refA; refB; refC] |}.
Proof.
  apply (unregister_inactive
           {| activeRef := Some refA; refs := [refA; refB; refC] |} refB).
  - simpl. right. left. reflexivity.
  - discriminate.
Defined.

(** Where no ref is registered twice, [unregister] really unregisters: the
    ref is gone from [refs], no ref is registered twice afterwards, and
    unregistering it once more changes nothing. *)
Theorem unregister_removes s h s' :
  NoDup (refs s) -> reducer s (unregister h) = Returns s' ->
  ~ In h (refs s') /\ NoDup (refs s')
  /\ reducer s' (unregister h) = Returns s'.
Proof.
  intros Hnd Hr.
  assert (Hgoal : ~ In h (refs s') /\ NoDup (refs s')).
  { destruct (findIndex_spec (fun r => ref_eqb r h) (refs s))
      as [[E Hall]|(n & x & E & Hn & Hx & _)].
    - unfold reducer, unregister in Hr; cbn [type payload] in Hr.
      rewrite E in Hr. change (-1 =? -1) with true in Hr. cbv iota in Hr.
      apply Returns_inj in Hr; subst s'. split; [|exact Hnd].
      intros Hin. specialize (Hall h Hin). rewrite ref_eqb_refl in Hall.
      discriminate.
    - apply ref_eqb_eq in Hx; subst x.
      rewrite (unregister_present s h n E Hn) in Hr.
      apply Returns_inj in Hr; subst s'. cbn [refs].
      rewrite (nth_error_split_at _ _ _ Hn) in Hnd.
      split; [apply NoDup_remove_2 in Hnd; exact Hnd|].
      apply NoDup_remove_1 in Hnd. exact Hnd. }
  destruct Hgoal as [Hnot Hnd']. split; [exact Hnot|]. split; [exact Hnd'|].
  apply unregistered_noop. exact Hnot.
Qed.

Lemma unregister_removes_witness :
  ~ In refB (refs {| activeRef := Some refC; refs := [refA; refC] |})
  /\ NoDup (refs {| activeRef := Some refC; refs := [refA; refC] |})
  /\ reducer {| activeRef := Some refC; refs := [refA; refC] |}
             (unregister refB)
     = Returns {| activeRef := Some refC; refs := [refA; refC] |}.
Proof.
  apply (unregister_removes
           {| activeRef := Some refB; refs := [refA; refB; refC] |} refB).
  - repeat constructor; simpl; intros H;
      repeat (destruct H as [H|H]; [discriminate H|]); exact H.
  - reflexivity.
Defined.

(** * More about the key-down handler *)

Lemma indexOf_range rs x : -1 <= indexOf rs x < js_length rs.
Proof.
  pose proof (js_length_nonneg rs) as Hlen.
  destruct x as [r|]; cbn [indexOf]; [|lia].
  destruct (findIndex_spec (fun e => ref_eqb e r) rs)
    as [[E _]|(n & y & E & Hn & _)]; rewrite E; [lia|].
  assert (n < List.length rs)%nat by (apply nth_error_Some; congruence).
  unfold js_length. lia.
Qed.

Lemma focus_registered s i :
  0 <= i < js_length (refs s) ->
  exists f, focus (refs s) i = Returns f /\ atMostOneRegistered s f.
Proof.
  intros H. destruct (js_index_in_range (refs s) i H) as (r & E & Hin).
  exists [r]. unfold focus, get_ref. rewrite E. split; [reflexivity|].
  right. exists r. split; [reflexivity|exact Hin].
Qed.

Lemma handler_finish props s (m : outcome (list Ref)) h :
  (exists f, m = Returns f /\ atMostOneRegistered s f) ->
  exists r,
    (hf <- (f <- m ;; Returns (h, f)) ;;
     let '(handled, focused) := hf in
     Returns {| focusCalls := focused;
                defaultPrevented := handled;
                propagationStopped := handled;
                onKeyDownCalled := negb handled && onKeyDown props;
                stateAfter := s |}) = Returns r
    /\ stateAfter r = s
    /\ atMostOneRegistered s (focusCalls r)
    /\ propagationStopped r = defaultPrevented r
    /\ (onKeyDownCalled r = true -> defaultPrevented r = false).
Proof.
  intros (f & -> & Hf). cbn [bind]. eexists. split; [reflexivity|].
  cbn [stateAfter focusCalls propagationStopped defaultPrevented
       onKeyDownCalled].
  repeat split; [exact Hf|]. destruct h; simpl; congruence.
Qed.

Lemma onKeyDownHandler_result props s ev :
  exists r, onKeyDownHandler props s ev = Returns r
    /\ stateAfter r = s
    /\ atMostOneRegistered s (focusCalls r)
    /\ propagationStopped r = defaultPrevented r
    /\ (onKeyDownCalled r = true -> defaultPrevented r = false).
Proof.
  pose proof (indexOf_range (refs s) (activeRef s)) as Hidx.
  assert (Hnone : forall h, exists r,
    (hf <- Returns (h, @nil Ref) ;;
     let '(handled, focused) := hf in
     Returns {| focusCalls := focused;
                defaultPrevented := handled;
                propagationStopped := handled;
                onKeyDownCalled := negb handled && onKeyDown props;
                stateAfter := s |}) = Returns r
    /\ stateAfter r = s
    /\ atMostOneRegistered s (focusCalls r)
    /\ propagationStopped r = defaultPrevented r
    /\ (onKeyDownCalled r = true -> defaultPrevented r = false)).
  { intros h. apply (handler_finish props s (Returns []) h).
    exists []. split; [reflexivity|left; reflexivity]. }
  assert (Hempty : exists f, Returns (@nil Ref) = Returns f
                             /\ atMostOneRegistered s f)
    by (exists []; split; [reflexivity|left; reflexivity]).
  unfold onKeyDownHandler. cbv zeta.
  destruct (negb _ && negb _); [|apply Hnone].
  destruct (String.eqb (key ev) Key.HOME).
  { destruct (handleHomeEnd props); [|apply Hnone].
    apply handler_finish.
    destruct (Z.gtb_spec (js_length (refs s)) 0); [|exact Hempty].
    apply focus_registered. lia. }
  destruct (String.eqb (key ev) Key.END_).
  { destruct (handleHomeEnd props); [|apply Hnone].
    apply handler_finish.
    destruct (Z.gtb_spec (js_length (refs s)) 0); [|exact Hempty].
    apply focus_registered. lia. }
  destruct (String.eqb (key ev) Key.ARROW_UP).
  { destruct (handleUpDown props); [|apply Hnone].
    apply handler_finish.
    destruct (Z.gtb_spec (js_length (refs s)) 0); [|exact Hempty].
    destruct (Z.gtb_spec (indexOf (refs s) (activeRef s)) 0); [|exact Hempty].
    apply focus_registered. lia. }
  destruct (String.eqb (key ev) Key.ARROW_DOWN); [|apply Hnone].
  destruct (handleUpDown props); [|apply Hnone].
  apply handler_finish.
  destruct (Z.gtb_spec (js_length (refs s)) 0); [|exact Hempty].
  destruct (Z.ltb_spec (indexOf (refs s) (activeRef s))
                       (js_length (refs s) - 1)); [|exact Hempty].
  apply focus_registered. lia.
Qed.

(** Whenever the handler returns, it has not touched the state; it has
    called [focus()] on at most one ref, and only on a registered one; it has
    stopped the propagation exactly when it prevented the default, and has
    handed the event to [onKeyDown] only when it did neither. *)
Theorem onKeyDownHandler_safe props s ev r :
  onKeyDownHandler props s ev = Returns r ->
  stateAfter r = s
  /\ atMostOneRegistered s (focusCalls r)
  /\ propagationStopped r = defaultPrevented r
  /\ (onKeyDownCalled r = true -> defaultPrevented r = false).
Proof.
  intros Hr.
  destruct (onKeyDownHandler_result props s ev) as (r' & Hr' & Hprops).
  rewrite Hr in Hr'. apply Returns_inj in Hr'. subst r'. exact Hprops.
Qed.

Lemma onKeyDownHandler_safe_witness :
  stateAfter (handled {| activeRef := Some refB; refs := [refA; refB] |} [refA])
  = {| activeRef := Some refB; refs := [refA; refB] |}
  /\ atMostOneRegistered {| activeRef := Some refB; refs := [refA; refB] |}
       (focusCalls (handled {| activeRef := Some refB; refs := [refA; refB] |}
                            [refA]))
  /\ propagationStopped
       (handled {| activeRef := Some refB; refs := [refA; refB] |} [refA])
     = defaultPrevented
         (handled {| activeRef := Some refB; refs := [refA; refB] |} [refA])
  /\ (onKeyDownCalled
         (handled {| activeRef := Some refB; refs := [refA; refB] |} [refA])
       = true ->
      defaultPrevented
        (handled {| activeRef := Some refB; refs := [refA; refB] |} [refA])
      = false).
Proof.
  apply (onKeyDownHandler_safe (mkProps false true false)
           {| activeRef := Some refB; refs := [refA; refB] |}
           (mkEvent "DIV" Key.ARROW_UP)).
  reflexivity.
Defined.

(** Goes through the branches of one [case] of the handler's [switch]. *)
Ltac handled_cases r :=
  destruct (handleHomeEnd _), (handleUpDown _);
  try destruct (_ >? 0); try destruct (_ >? 0); try destruct (_ <? _);
  try destruct (focus _ _); cbn [bind];
  intros H; try discriminate H; apply Returns_inj in H; subst r;
  cbn [defaultPrevented]; split; intros; try tauto; try discriminate;
  repeat match goal with
         | H : _ /\ _ |- _ => destruct H
         | H : _ \/ _ |- _ => destruct H
         end; discriminate.

(** The handler swallows the event (prevents the default and stops the
    propagation) exactly when the target is no INPUT or TEXTAREA and the key
    is Home or End with [handleHomeEnd], or ArrowUp or ArrowDown with
    [handleUpDown]: also when the registry is empty or the focus cannot move
    any further. *)
Theorem onKeyDownHandler_handled_iff props s ev r :
  onKeyDownHandler props s ev = Returns r ->
  (defaultPrevented r = true <->
   (tagName ev <> "INPUT"%string /\ tagName ev <> "TEXTAREA"%string
    /\ (((key ev = Key.HOME \/ key ev = Key.END_) /\ handleHomeEnd props = true)
        \/ ((key ev = Key.ARROW_UP \/ key ev = Key.ARROW_DOWN)
            /\ handleUpDown props = true)))).
Proof.
  unfold onKeyDownHandler. cbv zeta. unfold Key.HOME, Key.END_, Key.ARROW_UP,
    Key.ARROW_DOWN.
  destruct (String.eqb_spec (tagName ev) "INPUT") as [Ei|Ei];
    [cbn [negb andb bind]; intros H; apply Returns_inj in H; subst r;
     cbn [defaultPrevented]; split; [discriminate|tauto]|].
  destruct (String.eqb_spec (tagName ev) "TEXTAREA") as [Et|Et];
    [cbn [negb andb bind]; intros H; apply Returns_inj in H; subst r;
     cbn [defaultPrevented]; split; [discriminate|tauto]|].
  cbn [negb andb].
  destruct (String.eqb_spec (key ev) "Home") as [Eh|Eh];
    [rewrite Eh; handled_cases r|].
  destruct (String.eqb_spec (key ev) "End") as [Ee|Ee];
    [rewrite Ee; handled_cases r|].
  destruct (String.eqb_spec (key ev) "ArrowUp") as [Eu|Eu];
    [rewrite Eu; handled_cases r|].
  destruct (String.eqb_spec (key ev) "ArrowDown") as [Ed|Ed];
    [rewrite Ed; handled_cases r|].
  cbn [bind]. intros H; apply Returns_inj in H; subst r.
  cbn [defaultPrevented]. split; [discriminate|].
  intros (_ & _ & [[[H|H] _]|[[H|H] _]]); contradiction.
Qed.

Lemma onKeyDownHandler_handled_iff_witness :
  defaultPrevented (handled {| activeRef := None; refs := [] |} []) = true <->
  (tagName (mkEvent "DIV" Key.END_) <> "INPUT"%string
   /\ tagName (mkEvent "DIV" Key.END_) <> "TEXTAREA"%string
   /\ (((key (mkEvent "DIV" Key.END_) = Key.HOME
         \/ key (mkEvent "DIV" Key.END_) = Key.END_)
        /\ handleHomeEnd (mkProps true false false) = true)
       \/ ((key (mkEvent "DIV" Key.END_) = Key.ARROW_UP
            \/ key (mkEvent "DIV" Key.END_) = Key.ARROW_DOWN)
           /\ handleUpDown (mkProps true false false) = true))).
Proof.
  apply (onKeyDownHandler_handled_iff (mkProps true false false)
           {| activeRef := None; refs := [] |} (mkEvent "DIV" Key.END_)).
  reflexivity.
Defined.

(** * Permalinks: strings *)

Local Open Scope string_scope.

Lemma lacks_cons sep c s :
  lacks sep (String c s) <-> c <> sep /\ lacks sep s.
Proof. unfold lacks; cbn [list_ascii_of_string In]. tauto. Qed.

Lemma lacks_app sep a b : lacks sep a -> lacks sep b -> lacks sep (a ++ b).
Proof.
  induction a as [|c a IH]; intros Ha Hb; [exact Hb|].
  cbn [append]. apply lacks_cons in Ha as [Hc Ha].
  apply lacks_cons. split; [exact Hc|apply IH; assumption].
Qed.

Lemma js_split_nonempty sep s : js_split sep s <> [].
Proof.
  destruct s as [|c s]; cbn [js_split]; [discriminate|].
  destruct (Ascii.eqb c sep); [discriminate|].
  destruct (js_split sep s); discriminate.
Qed.

Lemma js_join_cons sep x y rest :
  js_join sep (x :: y :: rest) = x ++ sep ++ js_join sep (y :: rest).
Proof. reflexivity. Qed.

Lemma js_split_lacks sep s : lacks sep s -> js_split sep s = [s].
Proof.
  induction s as [|c s IH]; intros H; [reflexivity|].
  apply lacks_cons in H as [Hc H]. cbn [js_split].
  apply Ascii.eqb_neq in Hc. rewrite Hc, (IH H). reflexivity.
Qed.

Lemma js_split_app sep a b :
  lacks sep a -> js_split sep (a ++ String sep b) = a :: js_split sep b.
Proof.
  induction a as [|c a IH]; intros H; cbn [append js_split].
  - rewrite Ascii.eqb_refl. reflexivity.
  - apply lacks_cons in H as [Hc H]. apply Ascii.eqb_neq in Hc.
    rewrite Hc, (IH H). reflexivity.
Qed.

(** Splitting and joining again with the same separator gives the string
    back. *)
Lemma js_join_split sep s : js_join (String sep "") (js_split sep s) = s.
Proof.
  induction s as [|c s IH]; [reflexivity|]. cbn [js_split].
  destruct (Ascii.eqb_spec c sep) as [->|Hne].
  - pose proof (js_split_nonempty sep s) as Hne.
    destruct (js_split sep s) as [|y rest]; [congruence|].
    rewrite js_join_cons, IH. reflexivity.
  - pose proof (js_split_nonempty sep s) as Hne'.
    destruct (js_split sep s) as [|y rest]; [congruence|].
    destruct rest as [|z rest].
    + cbn [js_join] in *. rewrite IH. reflexivity.
    + rewrite <- IH. reflexivity.
Qed.

(** Joining pieces that are free of the separator and splitting the result
    gives the pieces back. *)
Lemma js_split_join sep pieces :
  pieces <> [] -> Forall (lacks sep) pieces ->
  js_split sep (js_join (String sep "") pieces) = pieces.
Proof.
  induction pieces as [|x rest IH]; intros Hne Hall; [congruence|].
  inversion Hall as [|? ? Hx Hrest]; subst.
  destruct rest as [|y rest].
  - cbn [js_join]. apply js_split_lacks. exact Hx.
  - rewrite js_join_cons. cbn [append].
    rewrite (js_split_app sep x _ Hx), IH; [reflexivity|discriminate|exact Hrest].
Qed.

(** The server name of a user id is all that follows its first colon, with
    the colons that part has (a port); a user id without a colon has the
    empty server name. *)
Theorem serverNameOf_after_first_colon localpart server :
  lacks ":" localpart ->
  serverNameOf (localpart ++ ":" ++ server) = server
  /\ serverNameOf localpart = "".
Proof.
  intros H. unfold serverNameOf, splice_from. split.
  - cbn [append]. rewrite (js_split_app ":" localpart server H).
    pose proof (js_split_nonempty ":" server) as Hne.
    assert (Hs : splice_start (localpart :: js_split ":" server) 1 = 1%nat).
    { change 1 with (Z.of_nat 1). apply splice_start_in_range.
      cbn [List.length]. lia. }
    rewrite Hs. cbn [skipn]. apply (js_join_split ":" server).
  - rewrite (js_split_lacks ":" localpart H). reflexivity.
Qed.

Lemma serverNameOf_after_first_colon_witness :
  serverNameOf ("@bob" ++ ":" ++ "example.com:8448") = "example.com:8448"
  /\ serverNameOf "@bob" = "".
Proof.
  apply (serverNameOf_after_first_colon "@bob" "example.com:8448").
  unfold lacks. simpl. intros H.
  repeat (destruct H as [H|H]; [discriminate H|]). exact H.
Defined.

(** [encodeURIComponent] only ever produces unreserved characters and the
    percent sign. *)
Lemma hexDigit_unreserved n :
  (n < 16)%nat -> isUnreserved (hexDigit n) = true.
Proof.
  intros H. do 16 (destruct n as [|n]; [reflexivity|]). lia.
Qed.

Lemma percentEncode_safe c x :
  In x (list_ascii_of_string (percentEncode c)) ->
  isUnreserved x = true \/ x = "%"%char.
Proof.
  pose proof (nat_ascii_bounded c) as Hc.
  unfold percentEncode. cbn [list_ascii_of_string In].
  intros [<-|[<-|[<-|[]]]].
  - right. reflexivity.
  - left. apply hexDigit_unreserved.
    apply Nat.Div0.div_lt_upper_bound. exact Hc.
  - left. apply hexDigit_unreserved. apply Nat.mod_upper_bound. discriminate.
Qed.

Lemma list_ascii_of_string_app a b :
  list_ascii_of_string (a ++ b)
  = (list_ascii_of_string a ++ list_ascii_of_string b)%list.
Proof.
  induction a as [|c a IH]; [reflexivity|].
  cbn [append list_ascii_of_string]. rewrite IH. reflexivity.
Qed.

Theorem encodeURIComponent_safe s x :
  In x (list_ascii_of_string (encodeURIComponent s)) ->
  isUnreserved x = true \/ x = "%"%char.
Proof.
  induction s as [|c s IH]; cbn [encodeURIComponent]; [intros []|].
  rewrite list_ascii_of_string_app. intros H.
  apply in_app_or in H as [H|H]; [|apply IH; exact H].
  destruct (isUnreserved c) eqn:E.
  - destruct H as [<-|[]]. left. exact E.
  - apply (percentEncode_safe c). exact H.
Qed.

Lemma encodeURIComponent_safe_witness :
  isUnreserved "3" = true \/ "3"%char = "%"%char.
Proof.
  apply (encodeURIComponent_safe "a:b" "3"). vm_compute. tauto.
Defined.

Lemma encodeURIComponent_lacks_amp s : lacks "&" (encodeURIComponent s).
Proof.
  intros H. apply encodeURIComponent_safe in H as [H|H]; discriminate H.
Qed.

Lemma via_join xs :
  xs <> [] ->
  "via=" ++ js_join "&via=" xs = js_join "&" (map (append "via=") xs).
Proof.
  induction xs as [|x rest IH]; intros Hne; [congruence|].
  destruct rest as [|y rest]; [reflexivity|].
  cbn [map]. rewrite !js_join_cons. cbn [map] in IH.
  rewrite <- IH by discriminate. cbn [append].
  reflexivity.
Qed.

(** The query [encodeServerCandidates] builds can be taken apart again:
    split at "&" it is exactly one [via=<encoded candidate>] for every
    candidate, in order, whatever characters the candidates have. *)
Theorem encodeServerCandidates_splits cs :
  cs <> [] ->
  js_split "&" (encodeServerCandidates (Some cs))
  = map (fun c => "via=" ++ encodeURIComponent (toString c)) cs.
Proof.
  intros Hne. unfold encodeServerCandidates.
  rewrite via_join by (destruct cs; [congruence|discriminate]).
  rewrite map_map. apply js_split_join.
  - destruct cs; [congruence|discriminate].
  - apply Forall_forall. intros p Hp. apply in_map_iff in Hp as (c & <- & _).
    apply (lacks_app "&" "via=").
    + unfold lacks. simpl. intros H.
      repeat (destruct H as [H|H]; [discriminate H|]). exact H.
    + apply encodeURIComponent_lacks_amp.
Qed.

Lemma encodeServerCandidates_splits_witness :
  js_split "&" (encodeServerCandidates (Some [Some "a&via=b"; None]))
  = map (fun c => "via=" ++ encodeURIComponent (toString c))
        [Some "a&via=b"; None].
Proof.
  apply (encodeServerCandidates_splits [Some "a&via=b"; None]). discriminate.
Defined.

Local Close Scope string_scope.

(** * Permalinks: the server candidates *)

Lemma fill_step fuel sbp c :
  js_length c < maxCandidates -> js_length c <= js_length sbp ->
  fillCandidates (S fuel) sbp c
  = fillCandidates fuel sbp
      (c ++ [js_index sbp (Z.max 0 (js_length c - 1))]).
Proof.
  intros H1 H2. cbn [fillCandidates].
  destruct (Z.ltb_spec (js_length c) maxCandidates); [|lia].
  destruct (Z.leb_spec (js_length c) (js_length sbp)); [|lia].
  reflexivity.
Qed.

Lemma fill_stop fuel sbp c :
  maxCandidates <= js_length c \/ js_length sbp < js_length c ->
  fillCandidates fuel sbp c = Returns c.
Proof.
  intros H. destruct fuel; cbn [fillCandidates];
    destruct (Z.ltb_spec (js_length c) maxCandidates);
    destruct (Z.leb_spec (js_length c) (js_length sbp));
    cbn [andb]; (reflexivity || lia).
Qed.

Ltac fill_run :=
  repeat (rewrite fill_step
            by (unfold js_length, maxCandidates; cbn [List.length app]; lia);
          cbn [app]);
  rewrite fill_stop
    by (unfold js_length, maxCandidates; cbn [List.length app]; lia).

(** The loop on no candidate: the first server is taken twice. *)
Lemma fill_from_none sbp :
  fillCandidates 3 sbp []
  = Returns match sbp with
            | [] => [None]
            | [s0] => [Some s0; Some s0]
            | s0 :: s1 :: _ => [Some s0; Some s0; Some s1]
            end.
Proof.
  destruct sbp as [|s0 [|s1 rest]]; fill_run; reflexivity.
Qed.

(** The loop on one candidate: up to two servers are added. *)
Lemma fill_from_one sbp h :
  fillCandidates 3 sbp [h] = Returns (h :: map Some (firstn 2 sbp)).
Proof.
  destruct sbp as [|s0 [|s1 rest]]; fill_run; reflexivity.
Qed.

Lemma fold_memberStep_fst ms : forall acc,
  fst (fold_left memberStep ms acc)
  = fold_left countServer (map serverOf ms) (fst acc).
Proof.
  induction ms as [|m ms IH]; intros [pm hp]; [reflexivity|].
  cbn [fold_left map]. rewrite IH. reflexivity.
Qed.

Lemma memberStep_highest pm hp seen m :
  highestAmong hp seen ->
  highestAmong (snd (memberStep (pm, hp) m)) (seen ++ [m]).
Proof.
  intros (H0 & Hmax & Hwho). unfold memberStep. cbn [snd].
  destruct (Z.gtb_spec (powerLevel m) (plPowerLevel hp)) as [Hgt|Hle];
    unfold highestAmong.
  - cbn [plPowerLevel plServerName]. split; [lia|]. split.
    + intros x Hx. apply in_app_or in Hx as [Hx|[<-|[]]]; [|lia].
      specialize (Hmax x Hx). lia.
    + right. exists seen, m, []. repeat split; try lia.
      intros x Hx. specialize (Hmax x Hx). lia.
  - split; [exact H0|]. split.
    + intros x Hx. apply in_app_or in Hx as [Hx|[<-|[]]]; [|lia].
      apply Hmax. exact Hx.
    + destruct Hwho as [Hz|(l1 & a & l2 & -> & Ha & Hpos & Hname & Hfirst)];
        [left; exact Hz|].
      right. exists l1, a, (l2 ++ [m]).
      rewrite <- app_assoc. repeat split; assumption.
Qed.

Lemma fold_memberStep_highest ms pm :
  highestAmong
    (snd (fold_left memberStep ms
            (pm, {| plUserId := None; plPowerLevel := 0; plServerName := None |})))
    ms.
Proof.
  induction ms as [|m ms IH] using rev_ind.
  - unfold highestAmong. cbn [fold_left snd plPowerLevel plServerName].
    split; [lia|]. split; [intros m []|]. left. split; reflexivity.
  - rewrite fold_left_app. cbn [fold_left].
    destruct (fold_left memberStep ms _) as [pm' hp'] eqn:E.
    cbn [snd] in IH. apply (memberStep_highest pm' hp' ms m IH).
Qed.

(** ** The population map *)

Lemma countServer_keys m k x :
  In x (ownKeys (countServer m k)) <-> x = k \/ In x (ownKeys m).
Proof.
  unfold ownKeys. induction m as [|[k' v] m IH]; cbn [countServer map fst In].
  - split; [intros [<-|[]]; auto|intros [->|[]]; auto].
  - destruct (String.eqb_spec k' k) as [->|Hne]; cbn [map fst In].
    + split; [intros [<-|H]; auto|intros [->|[<-|H]]; auto].
    + rewrite IH. tauto.
Qed.

Lemma countServer_NoDup m k :
  NoDup (ownKeys m) -> NoDup (ownKeys (countServer m k)).
Proof.
  unfold ownKeys. induction m as [|[k' v] m IH]; cbn [countServer map fst];
    intros Hnd.
  - repeat constructor. intros [].
  - inversion Hnd as [|? ? Hnot Hnd']; subst.
    destruct (String.eqb_spec k' k) as [->|Hne]; cbn [map fst].
    + constructor; assumption.
    + constructor; [|apply IH; exact Hnd'].
      intros Hin. apply (countServer_keys m k k') in Hin as [->|Hin];
        [congruence|contradiction].
Qed.

Lemma countServer_population m k x :
  populationOf (countServer m k) x
  = populationOf m x + (if String.eqb k x then 1 else 0).
Proof.
  unfold populationOf. induction m as [|[k' v] m IH]; cbn [countServer obj_get].
  - destruct (String.eqb k x); reflexivity.
  - destruct (String.eqb_spec k' k) as [->|Hne]; cbn [obj_get].
    + destruct (String.eqb k x); [|lia].
      destruct (Z.eqb_spec v 0); lia.
    + destruct (String.eqb_spec k' x) as [->|Hne'].
      * replace (String.eqb k x) with false
          by (symmetry; apply String.eqb_neq; congruence). lia.
      * exact IH.
Qed.

Lemma fold_countServer_keys ks : forall m x,
  In x (ownKeys (fold_left countServer ks m)) <-> In x ks \/ In x (ownKeys m).
Proof.
  induction ks as [|k ks IH]; intros m x; cbn [fold_left In]; [tauto|].
  rewrite IH, countServer_keys. split; intros H; intuition auto.
Qed.

Lemma fold_countServer_NoDup ks : forall m,
  NoDup (ownKeys m) -> NoDup (ownKeys (fold_left countServer ks m)).
Proof.
  induction ks as [|k ks IH]; intros m H; cbn [fold_left]; [exact H|].
  apply IH, countServer_NoDup, H.
Qed.

Lemma fold_countServer_population ks : forall m x,
  populationOf (fold_left countServer ks m) x
  = populationOf m x + js_length (filter (fun k => String.eqb k x) ks).
Proof.
  induction ks as [|k ks IH]; intros m x; cbn [fold_left filter].
  - unfold js_length; cbn [List.length]. lia.
  - rewrite IH, countServer_population.
    destruct (String.eqb k x); unfold js_length; cbn [List.length]; lia.
Qed.

Lemma memberCount_filter ms x :
  memberCount ms x = js_length (filter (fun k => String.eqb k x) (map serverOf ms)).
Proof.
  unfold memberCount, js_length. f_equal. f_equal.
  induction ms as [|m ms IH]; [reflexivity|]. cbn [filter map].
  destruct (String.eqb (serverOf m) x); cbn [List.length]; rewrite IH;
    reflexivity.
Qed.

(** ** The sort *)

Lemma insertBy_perm {A} (cmp : A -> A -> Z) x l :
  Permutation (insertBy cmp x l) (x :: l).
Proof.
  induction l as [|y l IH]; cbn [insertBy]; [reflexivity|].
  destruct (cmp x y <=? 0); [reflexivity|].
  rewrite IH. apply perm_swap.
Qed.

Lemma sortBy_perm {A} (cmp : A -> A -> Z) l : Permutation (sortBy cmp l) l.
Proof.
  induction l as [|x l IH]; cbn [sortBy]; [reflexivity|].
  rewrite insertBy_perm, IH. reflexivity.
Qed.

Lemma insertBy_headLeast {A} (f : A -> Z) x l :
  headLeast f l -> headLeast f (insertBy (fun a b => f a - f b) x l).
Proof.
  destruct l as [|y l]; cbn [insertBy headLeast].
  - intros _ z [<-|[]]. lia.
  - intros Hy. destruct (Z.leb_spec (f x - f y) 0) as [Hle|Hgt].
    + intros z [<-|Hz]; [lia|]. specialize (Hy z Hz). lia.
    + intros z [<-|Hz]; [lia|].
      apply (Permutation_in _ (insertBy_perm _ x l)) in Hz.
      destruct Hz as [<-|Hz]; [lia|]. apply Hy. right. exact Hz.
Qed.

Lemma sortBy_headLeast {A} (f : A -> Z) l :
  headLeast f (sortBy (fun a b => f a - f b) l).
Proof.
  induction l as [|x l IH]; cbn [sortBy]; [exact I|].
  apply insertBy_headLeast, IH.
Qed.

(** ** What [pickServerCandidates] returns *)

Lemma pick_known client roomId room :
  getRoom client roomId = Some room ->
  exists hp,
    highestAmong hp (getJoinedMembers room)
    /\ pickServerCandidates (Some client) roomId
       = fillCandidates 3
           (filter (fun a => negb (includes
                       (if plPowerLevel hp >=? 50 then [plServerName hp] else [])
                       a))
              (sortBy (fun a b =>
                         memberCount (getJoinedMembers room) a
                         - memberCount (getJoinedMembers room) b)
                 (ownKeys (fold_left countServer
                             (map serverOf (getJoinedMembers room)) []))))
           (if plPowerLevel hp >=? 50 then [plServerName hp] else []).
Proof.
  intros Hroom. unfold pickServerCandidates. rewrite Hroom.
  pose proof (fold_memberStep_fst (getJoinedMembers room)
                ([], {| plUserId := None; plPowerLevel := 0;
                        plServerName := None |})) as Hfst.
  pose proof (fold_memberStep_highest (getJoinedMembers room) []) as Hhi.
  destruct (fold_left memberStep _ _) as [pm hp]. cbn [fst snd] in *.
  subst pm. exists hp. split; [exact Hhi|]. cbv zeta. f_equal. f_equal.
  assert (Hcmp : forall a b,
    populationOf (fold_left countServer
                    (map serverOf (getJoinedMembers room)) []) a
    - populationOf (fold_left countServer
                      (map serverOf (getJoinedMembers room)) []) b
    = memberCount (getJoinedMembers room) a
      - memberCount (getJoinedMembers room) b).
  { intros a b. rewrite !fold_countServer_population, !memberCount_filter.
    reflexivity. }
  generalize (ownKeys (fold_left countServer
                         (map serverOf (getJoinedMembers room)) [])) as ks.
  induction ks as [|k ks IH]; [reflexivity|]. cbn [sortBy]. rewrite IH.
  generalize (sortBy (fun a b => memberCount (getJoinedMembers room) a
                                 - memberCount (getJoinedMembers room) b) ks)
    as sorted.
  induction sorted as [|y sorted IHs]; [reflexivity|]. cbn [insertBy].
  rewrite Hcmp, IHs. reflexivity.
Qed.

Lemma server_keys ms x :
  In x (ownKeys (fold_left countServer (map serverOf ms) []))
  <-> exists m, In m ms /\ serverOf m = x.
Proof.
  rewrite fold_countServer_keys, in_map_iff. cbn [ownKeys map In].
  split.
  - intros [(m & E & Hm)|[]]. exists m. split; assumption.
  - intros (m & Hm & E). left. exists m. split; assumption.
Qed.

(** Without a client the function throws; with one it always returns, and
    never more than three candidates. *)
Theorem pickServerCandidates_at_most_three roomId :
  pickServerCandidates None roomId = TypeError
  /\ forall client, exists cs,
       pickServerCandidates (Some client) roomId = Returns cs
       /\ (List.length cs <= 3)%nat.
Proof.
  split; [reflexivity|]. intros client.
  destruct (getRoom client roomId) as [room|] eqn:Hroom.
  - destruct (pick_known client roomId room Hroom) as (hp & _ & ->).
    destruct (plPowerLevel hp >=? 50).
    + rewrite fill_from_one. eexists. split; [reflexivity|].
      cbn [List.length]. rewrite length_map, length_firstn. lia.
    + rewrite fill_from_none. eexists. split; [reflexivity|].
      destruct (filter _ _) as [|s0 [|s1 rest]]; cbn [List.length]; lia.
  - unfold pickServerCandidates. rewrite Hroom. exists []. split; [reflexivity|].
    cbn [List.length]. lia.
Qed.

(** A room the client does not know: no candidates, and the permalinks end
    in an empty [via=]. *)
Theorem permalink_unknown_room client roomId eventId :
  getRoom client roomId = None ->
  pickServerCandidates (Some client) roomId = Returns []
  /\ makeRoomPermalink (Some client) roomId
     = Returns ("https://matrix.to/#/" ++ roomId ++ "?via=")%string
  /\ makeEventPermalink (Some client) roomId eventId
     = Returns ("https://matrix.to/#/" ++ roomId ++ "/" ++ eventId ++ "?via=")%string.
Proof.
  intros Hroom.
  assert (Hpick : pickServerCandidates (Some client) roomId = Returns [])
    by (unfold pickServerCandidates; rewrite Hroom; reflexivity).
  unfold makeRoomPermalink, makeEventPermalink. rewrite Hpick.
  repeat split.
Qed.

Lemma permalink_unknown_room_witness :
  pickServerCandidates (Some sampleClient) "!other:matrix.org" = Returns []
  /\ makeRoomPermalink (Some sampleClient) "!other:matrix.org"
     = Returns ("https://matrix.to/#/" ++ "!other:matrix.org" ++ "?via=")%string
  /\ makeEventPermalink (Some sampleClient) "!other:matrix.org" "$event"
     = Returns ("https://matrix.to/#/" ++ "!other:matrix.org" ++ "/" ++ "$event"
                ++ "?via=")%string.
Proof.
  apply (permalink_unknown_room sampleClient "!other:matrix.org" "$event").
  reflexivity.
Defined.

(** A room without joined members: the one candidate is [undefined], and the
    room permalink says [via=undefined]. *)
Theorem permalink_empty_room client roomId room :
  getRoom client roomId = Some room -> getJoinedMembers room = [] ->
  pickServerCandidates (Some client) roomId = Returns [None]
  /\ makeRoomPermalink (Some client) roomId
     = Returns ("https://matrix.to/#/" ++ roomId ++ "?via=undefined")%string.
Proof.
  intros Hroom Hnone.
  assert (Hpick : pickServerCandidates (Some client) roomId = Returns [None])
    by (unfold pickServerCandidates; rewrite Hroom, Hnone; reflexivity).
  unfold makeRoomPermalink. rewrite Hpick. split; reflexivity.
Qed.

Lemma permalink_empty_room_witness :
  pickServerCandidates (Some (mkClient (fun _ => Some (mkRoom [])))) "!r:s"
  = Returns [None]
  /\ makeRoomPermalink (Some (mkClient (fun _ => Some (mkRoom [])))) "!r:s"
     = Returns ("https://matrix.to/#/" ++ "!r:s" ++ "?via=undefined")%string.
Proof.
  apply (permalink_empty_room (mkClient (fun _ => Some (mkRoom []))) "!r:s"
           (mkRoom [])); reflexivity.
Defined.

(** With a member of power level 50 or more, the first candidate is the
    server of the first member that has the highest power level; up to two
    servers of other members follow, and no server is listed twice. *)
Theorem pickServerCandidates_with_admin client roomId room :
  getRoom client roomId = Some room ->
  (exists m, In m (getJoinedMembers room) /\ 50 <= powerLevel m) ->
  exists before admin after others,
    getJoinedMembers room = before ++ admin :: after
    /\ 50 <= powerLevel admin
    /\ (forall m, In m before -> powerLevel m < powerLevel admin)
    /\ (forall m, In m after -> powerLevel m <= powerLevel admin)
    /\ pickServerCandidates (Some client) roomId
       = Returns (map Some (serverOf admin :: others))
    /\ NoDup (serverOf admin :: others)
    /\ (List.length others <= 2)%nat
    /\ forall s, In s others ->
         exists m, In m (getJoinedMembers room) /\ serverOf m = s.
Proof.
  intros Hroom (m0 & Hm0 & Hpl0).
  destruct (pick_known client roomId room Hroom)
    as (hp & (H0 & Hmax & Hwho) & Hpick).
  pose proof (Hmax m0 Hm0) as Hhp.
  destruct Hwho as [[Hz _]|(l1 & a & l2 & Hsplit & Ha & _ & Hname & Hfirst)];
    [lia|].
  rewrite Hpick.
  destruct (Z.geb_spec (plPowerLevel hp) 50) as [_|Hlt]; [|lia].
  rewrite fill_from_one, Hname.
  set (sbp := filter _ _).
  exists l1, a, l2, (firstn 2 sbp). split; [exact Hsplit|].
  split; [lia|]. split; [exact Hfirst|]. split.
  { intros m Hm. rewrite Ha. apply Hmax. rewrite Hsplit.
    apply in_or_app. right. right. exact Hm. }
  split; [reflexivity|].
  assert (Hsbp : forall s, In s sbp ->
            s <> serverOf a
            /\ exists m, In m (getJoinedMembers room) /\ serverOf m = s).
  { intros s Hs. unfold sbp in Hs. apply filter_In in Hs as [Hs Hnot].
    apply (Permutation_in _ (sortBy_perm _ _)) in Hs.
    apply server_keys in Hs. split; [|exact Hs].
    intros ->. cbn [includes existsb] in Hnot.
    rewrite String.eqb_refl in Hnot. discriminate Hnot. }
  assert (Hnd : NoDup sbp).
  { unfold sbp. apply NoDup_filter.
    apply (Permutation_NoDup (Permutation_sym (sortBy_perm _ _))).
    apply fold_countServer_NoDup. constructor. }
  assert (Hfirstn : forall s, In s (firstn 2 sbp) -> In s sbp).
  { intros s Hs. rewrite <- (firstn_skipn 2 sbp). apply in_or_app.
    left. exact Hs. }
  split; [|split].
  - constructor.
    + intros Hin. apply Hfirstn, Hsbp in Hin as [Hne _]. congruence.
    + rewrite <- (firstn_skipn 2 sbp) in Hnd.
      apply NoDup_app_remove_r in Hnd. exact Hnd.
  - rewrite length_firstn. lia.
  - intros s Hs. apply Hfirstn, Hsbp in Hs as [_ Hs]. exact Hs.
Qed.

Lemma pickServerCandidates_with_admin_witness :
  exists before admin after others,
    getJoinedMembers sampleRoom = before ++ admin :: after
    /\ 50 <= powerLevel admin
    /\ (forall m, In m before -> powerLevel m < powerLevel admin)
    /\ (forall m, In m after -> powerLevel m <= powerLevel admin)
    /\ pickServerCandidates (Some sampleClient) "!room:matrix.org"
       = Returns (map Some (serverOf admin :: others))
    /\ NoDup (serverOf admin :: others)
    /\ (List.length others <= 2)%nat
    /\ forall s, In s others ->
         exists m, In m (getJoinedMembers sampleRoom) /\ serverOf m = s.
Proof.
  apply (pickServerCandidates_with_admin sampleClient "!room:matrix.org"
           sampleRoom).
  - reflexivity.
  - exists (mkMember "@carol:matrix.org" 50). split; [|simpl; lia].
    simpl. right. right. left. reflexivity.
Defined.

Lemma filter_all {A} (l : list A) : filter (fun _ => true) l = l.
Proof. induction l as [|x l IH]; [reflexivity|]. cbn [filter]. rewrite IH. reflexivity. Qed.

(** Without a member of power level 50 or more (and with at least one
    member), where the members' server names are host names with a dot: the
    first two candidates are one and the same server, a server with the
    fewest members of all; at most one more candidate follows. *)
Theorem pickServerCandidates_without_admin client roomId room :
  getRoom client roomId = Some room ->
  getJoinedMembers room <> [] ->
  (forall m, In m (getJoinedMembers room) -> powerLevel m < 50) ->
  (forall m, In m (getJoinedMembers room) -> hostLike (serverOf m)) ->
  exists s0 rest,
    pickServerCandidates (Some client) roomId
    = Returns (Some s0 :: Some s0 :: rest)
    /\ (List.length rest <= 1)%nat
    /\ (exists m, In m (getJoinedMembers room) /\ serverOf m = s0)
    /\ forall m, In m (getJoinedMembers room) ->
         memberCount (getJoinedMembers room) s0
         <= memberCount (getJoinedMembers room) (serverOf m).
Proof.
  intros Hroom Hne Hlow _.
  destruct (pick_known client roomId room Hroom)
    as (hp & (H0 & Hmax & Hwho) & Hpick).
  assert (Hhp : plPowerLevel hp < 50).
  { destruct Hwho as [[Hz _]|(l1 & a & l2 & Hsplit & Ha & _)]; [lia|].
    rewrite <- Ha. apply Hlow. rewrite Hsplit. apply in_or_app.
    right. left. reflexivity. }
  rewrite Hpick. destruct (Z.geb_spec (plPowerLevel hp) 50) as [Hge|_]; [lia|].
  cbn [includes existsb negb]. rewrite filter_all, fill_from_none.
  pose proof (sortBy_headLeast (memberCount (getJoinedMembers room))
                (ownKeys (fold_left countServer
                            (map serverOf (getJoinedMembers room)) [])))
    as Hleast.
  pose proof (sortBy_perm
                (fun a b => memberCount (getJoinedMembers room) a
                            - memberCount (getJoinedMembers room) b)
                (ownKeys (fold_left countServer
                            (map serverOf (getJoinedMembers room)) [])))
    as Hperm.
  destruct (sortBy _ _) as [|s0 sorted].
  - exfalso. destruct (getJoinedMembers room) as [|m ms] eqn:E; [congruence|].
    assert (Hin : In (serverOf m)
                    (ownKeys (fold_left countServer (map serverOf (m :: ms)) [])))
      by (apply server_keys; exists m; split; [left|]; reflexivity).
    apply (Permutation_in _ (Permutation_sym Hperm)) in Hin. destruct Hin.
  - cbn [headLeast] in Hleast.
    assert (Hs0 : exists m, In m (getJoinedMembers room) /\ serverOf m = s0).
    { apply server_keys. apply (Permutation_in _ Hperm). left. reflexivity. }
    assert (Hmin : forall m, In m (getJoinedMembers room) ->
              memberCount (getJoinedMembers room) s0
              <= memberCount (getJoinedMembers room) (serverOf m)).
    { intros m Hm. apply Hleast.
      apply (Permutation_in _ (Permutation_sym Hperm)).
      apply server_keys. exists m. split; [exact Hm|reflexivity]. }
    destruct sorted as [|s1 sorted'].
    + exists s0, []. repeat split; [cbn; lia|exact Hs0|exact Hmin].
    + exists s0, [Some s1]. repeat split; [cbn; lia|exact Hs0|exact Hmin].
Qed.

Lemma pickServerCandidates_without_admin_witness :
  exists s0 rest,
    pickServerCandidates
      (Some (mkClient (fun _ => Some (mkRoom
         [mkMember "@a:big.org" 0; mkMember "@b:big.org" 10;
          mkMember "@c:small.org" 0])))) "!r:big.org"
    = Returns (Some s0 :: Some s0 :: rest)
    /\ (List.length rest <= 1)%nat
    /\ (exists m,
          In m [mkMember "@a:big.org" 0; mkMember "@b:big.org" 10;
                mkMember "@c:small.org" 0] /\ serverOf m = s0)
    /\ forall m,
         In m [mkMember "@a:big.org" 0; mkMember "@b:big.org" 10;
               mkMember "@c:small.org" 0] ->
         memberCount [mkMember "@a:big.org" 0; mkMember "@b:big.org" 10;
                      mkMember "@c:small.org" 0] s0
         <= memberCount [mkMember "@a:big.org" 0; mkMember "@b:big.org" 10;
                         mkMember "@c:small.org" 0] (serverOf m).
Proof.
  apply (pickServerCandidates_without_admin
           (mkClient (fun _ => Some (mkRoom
              [mkMember "@a:big.org" 0; mkMember "@b:big.org" 10;
               mkMember "@c:small.org" 0]))) "!r:big.org"
           (mkRoom [mkMember "@a:big.org" 0; mkMember "@b:big.org" 10;
                    mkMember "@c:small.org" 0])).
  - reflexivity.
  - discriminate.
  - simpl. intros m [<-|[<-|[<-|[]]]]; simpl; lia.
  - simpl. intros m [<-|[<-|[<-|[]]]]; unfold hostLike; vm_compute;
      repeat (first [left; reflexivity|right]).
Defined.

(** * Re-registering on ordered refs *)

Lemma register_present_in_order_witness :
  reducer {| activeRef := Some refA; refs := [refA; refB; refC] |}
          (register refC)
  = Returns {| activeRef := Some refA; refs := [refA; refB; refC] |}.
Proof.
  apply (register_present_in_order
           {| activeRef := Some refA; refs := [refA; refB; refC] |} refC).
  - reflexivity.
  - simpl. right. right. left. reflexivity.
Defined.
